(** * bitmap-tree: a shallow embedding of [bitmap_tree.hpp]

    The header defines a sparse B-ary tree of bitmaps, [bmt::tree_t<T>], for an
    unsigned word type [T] of B bits.  The embedding keeps the source's names:
    [node_t], [tree_t], [init_leaf], [set_bit], [clear_bit], [test_bit],
    [move_max_size], [allocate_at], [is_allocated], [allocate], [deallocate].

    Words are integers of [Z] with the wrap-around written out, arrays are
    lists read with [!!] and written with [<[ _ := _ ]>], the two unbounded
    loops of the source carry a fuel argument, and every operation the C++
    standard leaves undefined (a shift by the word width or more, an array
    index out of bounds, a division by zero, a read of memory that [malloc]
    returned and nobody wrote) is the result [Undefined].  [malloc] is taken
    to succeed.  A node owns its children and no pointer is shared, so a
    node is a value of an inductive type and a write along a path returns
    the rewritten node. *)

From Stdlib Require Import ZArith Lia Bool List.
From stdpp Require Import base option list.

Local Open Scope Z_scope.

Set Warnings "-register-all".

(** ** Word types *)

(** The template parameter [T]: the two instantiations the project uses. *)
Inductive word_type : Set := U32 | U64.

(** [sizeof(T) * 8] *)
Definition bits_per_word (T : word_type) : Z :=
  match T with U32 => 32 | U64 => 64 end.

Definition branching_factor (T : word_type) : Z := bits_per_word T.

(** Conversion of an integer to [T] and to [u64_t]. *)
Definition cast_T (T : word_type) (z : Z) : Z := z mod 2 ^ bits_per_word T.
Definition cast_u64 (z : Z) : Z := z mod 2 ^ 64.

(** [~T(0)] and [~T(1)] *)
Definition all_ones (T : word_type) : Z := cast_T T (Z.lnot 0).
Definition all_but_first (T : word_type) : Z := cast_T T (Z.lnot 1).

(** ** Results of a call *)

Inductive result (A : Type) : Type :=
| Ok (a : A)
| Undefined
| OutOfFuel.
Arguments Ok {A} a.
Arguments Undefined {A}.
Arguments OutOfFuel {A}.

#[global] Instance result_ret : MRet result := fun A a => Ok a.

#[global] Instance result_bind : MBind result := fun A B k r =>
  match r with
  | Ok a => k a
  | Undefined => Undefined
  | OutOfFuel => OutOfFuel
  end.

(** ** Nodes and trees *)

(** [node_t<T>]: the flag [is_leaf] chooses the member of the union, so a node
    is one of two constructors.  A field of type [option Z] is [None] while
    it holds what [malloc] returned; an entry [None] of [branches] is a
    pointer that was never written. *)
Inductive node_t : Type :=
| leaf_node (unset_branches : option Z) (allocated_branches : option Z)
            (bits : list Z)
| inner_node (unset_branches : option Z) (allocated_branches : option Z)
             (branches : list (option node_t)).

Definition unset_branches (n : node_t) : option Z :=
  match n with leaf_node ub _ _ => ub | inner_node ub _ _ => ub end.

Definition allocated_branches (n : node_t) : option Z :=
  match n with leaf_node _ ab _ => ab | inner_node _ ab _ => ab end.

Definition is_leaf (n : node_t) : bool :=
  match n with leaf_node _ _ _ => true | inner_node _ _ _ => false end.

Record tree_t : Type := mk_tree {
  root : node_t;
  levels : Z;
  allocated_resources : Z;
  current_max_size : Z
}.

(** [node_t<T>::init_leaf], on a node fresh from [malloc]. *)
Definition init_leaf (T : word_type) : node_t :=
  leaf_node (Some (all_ones T)) None
            (replicate (Z.to_nat (branching_factor T)) (all_ones T)).

(** ** Bit operations *)

(** [n |= T(1) << bit] *)
Definition set_bit (T : word_type) (n bit : Z) : Z :=
  Z.lor n (cast_T T (Z.shiftl 1 bit)).

(** [n &= ~(T(1) << bit)] *)
Definition clear_bit (T : word_type) (n bit : Z) : Z :=
  Z.land n (cast_T T (Z.lnot (cast_T T (Z.shiftl 1 bit)))).

(** [return n & (T(1) << bit)], converted to [bool] *)
Definition test_bit (T : word_type) (n bit : Z) : bool :=
  negb (Z.land n (cast_T T (Z.shiftl 1 bit)) =? 0).

(** ** The tree *)

(** [tree_t<T>::tree_t] *)
Definition tree_new (T : word_type) : tree_t :=
  {| root := init_leaf T;
     levels := 0;
     allocated_resources := 0;
     current_max_size := cast_u64 (branching_factor T * bits_per_word T) |}.

(** One turn of the [while] of [tree_t<T>::move_max_size]: a new root is put
    above the old one. *)
Definition wrap_root (T : word_type) (t : tree_t) : result tree_t :=
  match unset_branches (root t) with
  | None => Undefined
  | Some ub =>
      let new_root :=
        inner_node
          (Some (if ub =? all_ones T then all_ones T else all_but_first T))
          (Some (cast_T T 1))
          (Some (root t)
             :: replicate (Z.to_nat (branching_factor T) - 1) None) in
      Ok {| root := new_root;
            levels := cast_u64 (levels t + 1);
            allocated_resources := allocated_resources t;
            current_max_size :=
              cast_u64 (current_max_size t * branching_factor T) |}
  end.

(** [tree_t<T>::move_max_size]; one unit of fuel per turn of the [while]. *)
Fixpoint move_max_size (T : word_type) (fuel : nat) (t : tree_t) (idx : Z)
  {struct fuel} : result tree_t :=
  if current_max_size t <=? idx then
    match fuel with
    | O => OutOfFuel
    | S fuel' => t ← wrap_root T t; move_max_size T fuel' t idx
    end
  else Ok t.

(** The tree the [while] of [move_max_size] holds after [n] turns. *)
Fixpoint wrap_times (T : word_type) (n : nat) (t : tree_t) : result tree_t :=
  match n with
  | O => Ok t
  | S n' => t ← wrap_root T t; wrap_times T n' t
  end.

(** The node a fresh branch of [allocate_at] points to. *)
Definition new_branch (T : word_type) (current_level : Z) : node_t :=
  if current_level =? 0 then init_leaf T
  else inner_node None (Some 0)
         (replicate (Z.to_nat (branching_factor T)) None).

(** The [for(;;)] of [tree_t<T>::allocate_at], one unit of fuel per turn.
    The loop walks down from [current_node] and writes in place; here it
    returns the rewritten node together with the counter. *)
Fixpoint allocate_at_loop (T : word_type) (fuel : nat) (current_node : node_t)
    (subtree_size current_level idx allocated : Z) {struct fuel}
  : result (node_t * Z) :=
  match fuel with
  | O => OutOfFuel
  | S fuel' =>
      let subtree_size := subtree_size / branching_factor T in
      if subtree_size =? 0 then Undefined else
      let bucket := idx / subtree_size in
      let idx := idx mod subtree_size in
      match current_node with
      | leaf_node ub ab bits =>
          match bits !! Z.to_nat bucket with
          | Some word =>
              if idx <? bits_per_word T then
                let allocated :=
                  if test_bit T word idx then cast_u64 (allocated + 1)
                  else allocated in
                Ok (leaf_node ub ab
                      (<[Z.to_nat bucket := clear_bit T word idx]> bits),
                    allocated)
              else Undefined
          | None => Undefined
          end
      | inner_node ub ab branches =>
          match ab with
          | None => Undefined
          | Some ab =>
              if bucket <? branching_factor T then
                let '(ab, branches) :=
                  if negb (test_bit T ab bucket) then
                    (set_bit T ab bucket,
                     <[Z.to_nat bucket := Some (new_branch T current_level)]>
                       branches)
                  else (ab, branches) in
                match branches !! Z.to_nat bucket with
                | Some (Some child) =>
                    '(child, allocated) ←
                      allocate_at_loop T fuel' child subtree_size
                        (cast_u64 (current_level - 1)) idx allocated;
                    Ok (inner_node ub (Some ab)
                          (<[Z.to_nat bucket := Some child]> branches),
                        allocated)
                | _ => Undefined
                end
              else Undefined
          end
      end
  end.

(** [tree_t<T>::allocate_at]; [move_max_size] takes its argument as a [T]. *)
Definition allocate_at (T : word_type) (fuel : nat) (t : tree_t) (idx : Z)
  : result tree_t :=
  t ← (if current_max_size t <=? idx
       then move_max_size T fuel t (cast_T T idx) else Ok t);
  '(r, allocated) ←
    allocate_at_loop T fuel (root t) (current_max_size t) (levels t) idx
      (allocated_resources t);
  Ok {| root := r;
        levels := levels t;
        allocated_resources := allocated;
        current_max_size := current_max_size t |}.

(** The [for(;;)] of [tree_t<T>::is_allocated]. *)
Fixpoint is_allocated_loop (T : word_type) (fuel : nat) (current_node : node_t)
    (subtree_size idx : Z) {struct fuel} : result bool :=
  match fuel with
  | O => OutOfFuel
  | S fuel' =>
      let subtree_size := subtree_size / branching_factor T in
      if subtree_size =? 0 then Undefined else
      let bucket := idx / subtree_size in
      let idx := idx mod subtree_size in
      match current_node with
      | leaf_node ub ab bits =>
          match bits !! Z.to_nat bucket with
          | Some word =>
              if idx <? bits_per_word T then Ok (negb (test_bit T word idx))
              else Undefined
          | None => Undefined
          end
      | inner_node ub ab branches =>
          match ab with
          | None => Undefined
          | Some ab =>
              if bucket <? branching_factor T then
                if negb (test_bit T ab bucket) then Ok false
                else
                  match branches !! Z.to_nat bucket with
                  | Some (Some child) =>
                      is_allocated_loop T fuel' child subtree_size idx
                  | _ => Undefined
                  end
              else Undefined
          end
      end
  end.

(** [tree_t<T>::is_allocated], a [const] member: it returns no tree. *)
Definition is_allocated (T : word_type) (fuel : nat) (t : tree_t) (idx : Z)
  : result bool :=
  if current_max_size t <=? idx then Ok false
  else is_allocated_loop T fuel (root t) (current_max_size t) idx.

(** [tree_t<T>::allocate]: the body is [return T();]. *)
Definition allocate (T : word_type) (t : tree_t) : tree_t * Z :=
  (t, cast_T T 0).

(** [tree_t<T>::deallocate]: the body is empty. *)
Definition deallocate (T : word_type) (t : tree_t) (idx : Z) : tree_t := t.


(** ** Size of the tree *)

(** Nodes that [malloc] returned and the tree links, all of them and those at
    one depth below a node. *)
Fixpoint node_count (n : node_t) : nat :=
  match n with
  | leaf_node _ _ _ => 1
  | inner_node _ _ branches =>
      S (sum_list_with (fun b => match b with
                                 | Some child => node_count child
                                 | None => 0
                                 end) branches)
  end%nat.

Fixpoint nodes_at_depth (d : nat) (n : node_t) {struct d} : nat :=
  match d with
  | O => 1
  | S d' =>
      match n with
      | leaf_node _ _ _ => 0
      | inner_node _ _ branches =>
          sum_list_with (fun b => match b with
                                  | Some child => nodes_at_depth d' child
                                  | None => 0
                                  end) branches
      end
  end%nat.

(** ** Public operations and reachable trees *)

(** The indices a caller can pass: [u64_t] for [allocate_at] and
    [is_allocated], [T] for [deallocate]. *)
Definition is_u64 (z : Z) : Prop := 0 <= z < 2 ^ 64.
Definition is_T (T : word_type) (z : Z) : Prop := 0 <= z < 2 ^ bits_per_word T.

(** One call of a public member that returns.  [is_allocated] is [const]. *)
Inductive step (T : word_type) : tree_t -> tree_t -> Prop :=
| step_allocate_at t fuel idx t' :
    is_u64 idx -> allocate_at T fuel t idx = Ok t' -> step T t t'
| step_allocate t :
    step T t (fst (allocate T t))
| step_deallocate t idx :
    is_T T idx -> step T t (deallocate T t idx)
| step_is_allocated t fuel idx b :
    is_u64 idx -> is_allocated T fuel t idx = Ok b -> step T t t.

(** The trees a program can hold: [tree_t()] followed by calls. *)
Inductive reachable (T : word_type) : tree_t -> Prop :=
| reachable_new : reachable T (tree_new T)
| reachable_step t t' : reachable T t -> step T t t' -> reachable T t'.

(** The trees a program can get to from [t]. *)
Inductive reachable_from (T : word_type) (t : tree_t) : tree_t -> Prop :=
| reachable_from_refl : reachable_from T t t
| reachable_from_step t' t'' :
    reachable_from T t t' -> step T t' t'' -> reachable_from T t t''.

(** Fuel that lets a descent from the root reach a leaf. *)
Definition enough_fuel (t : tree_t) (fuel : nat) : Prop :=
  levels t + 2 <= Z.of_nat fuel.

(** The indices [allocate_at] can grow the tree to: past them the capacity
    [B^k] that would cover the index does not fit [u64_t] (64-bit words), or
    the index does not fit the [T] that [move_max_size] takes (32-bit
    words). *)
Definition index_limit (T : word_type) : Z :=
  match T with U32 => 2 ^ 32 | U64 => 2 ^ 60 end.

(** ** Shape of a tree *)

(** [span T k]: what [subtree_size] is after the division at a node that is
    [k] turns of the loop above the last one. *)
Definition span (T : word_type) (k : nat) : Z :=
  branching_factor T ^ Z.of_nat k.

Definition is_word (T : word_type) (w : Z) : Prop :=
  0 <= w < 2 ^ bits_per_word T.

(** A node the descent enters with [subtree_size = span T (S k)]: leaves sit
    at [k <= 1], every written summary word is all-ones, and the bitmap
    [allocated_branches] says which pointers were written. *)
Fixpoint wf_node (T : word_type) (k : nat) (n : node_t) {struct k} : Prop :=
  match n with
  | leaf_node ub ab bits =>
      (k <= 1)%nat /\ ub = Some (all_ones T) /\
      length bits = Z.to_nat (branching_factor T) /\
      (forall i w, bits !! i = Some w -> is_word T w)
  | inner_node ub ab branches =>
      match k with
      | O => False
      | S k' =>
          (ub = None \/ ub = Some (all_ones T)) /\
          exists abz, ab = Some abz /\ is_word T abz /\
            length branches = Z.to_nat (branching_factor T) /\
            forall i, (i < Z.to_nat (branching_factor T))%nat ->
              if Z.testbit abz (Z.of_nat i)
              then exists child,
                     branches !! i = Some (Some child) /\ wf_node T k' child
              else branches !! i = Some None
      end
  end.

(** The largest capacity a tree gets. *)
Definition capacity_limit (T : word_type) : Z :=
  match T with U32 => 2 ^ 35 | U64 => 2 ^ 60 end.

(** What [is_allocated] answers when it has the fuel to reach a leaf. *)
Definition tree_allocated (T : word_type) (t : tree_t) (idx : Z) : bool :=
  match is_allocated T (Z.to_nat (levels t + 2)) t idx with
  | Ok b => b
  | _ => false
  end.

(** What every reachable tree satisfies: its shape, and as many allocated
    indices as the counter says. *)
Definition shape_inv (T : word_type) (t : tree_t) : Prop :=
  exists k : nat,
    levels t = Z.of_nat k /\
    current_max_size t = span T (k + 2) /\
    current_max_size t <= capacity_limit T /\
    wf_node T (S k) (root t) /\
    unset_branches (root t) = Some (all_ones T).

Definition count_inv (T : word_type) (t : tree_t) : Prop :=
  exists l : list Z,
    NoDup l /\
    allocated_resources t = Z.of_nat (length l) /\
    forall j, j ∈ l ->
      0 <= j < current_max_size t /\ tree_allocated T t j = true.

Definition tree_inv (T : word_type) (t : tree_t) : Prop :=
  shape_inv T t /\ count_inv T t.

(** Whether the descent from a node that it enters with
    [subtree_size = span T (S k)] finds [idx] allocated. *)
Definition allocated_in (T : word_type) (k : nat) (n : node_t) (idx : Z)
  : bool :=
  match is_allocated_loop T (S k) n (span T (S k)) idx with
  | Ok b => b
  | _ => false
  end.

(** A caller that allocates the indices of a list one after the other, as the
    loop of the random-allocation benchmark does. *)
Fixpoint allocate_all (T : word_type) (fuel : nat) (t : tree_t) (l : list Z)
  : result tree_t :=
  match l with
  | [] => Ok t
  | idx :: l' => t ← allocate_at T fuel t idx; allocate_all T fuel t l'
  end.

(** ** What the specification says of [is_allocated] *)

(** Where the root-to-leaf path of an index ends: at a branch that was never
    materialized, or at a bit of a leaf. *)
Inductive path_end : Set :=
| unmaterialized
| leaf_bit (b : bool).

(** The root-to-leaf path of [idx] below a node that covers [subtree_size]
    indices, by bucket arithmetic. *)
Inductive root_to_leaf_path (T : word_type)
  : node_t -> Z -> Z -> path_end -> Prop :=
| path_leaf ub ab bits subtree_size idx word :
    bits !! Z.to_nat (idx / (subtree_size / branching_factor T)) = Some word ->
    root_to_leaf_path T (leaf_node ub ab bits) subtree_size idx
      (leaf_bit (Z.testbit word (idx mod (subtree_size / branching_factor T))))
| path_unmaterialized ub ab branches subtree_size idx :
    Z.testbit ab (idx / (subtree_size / branching_factor T)) = false ->
    root_to_leaf_path T (inner_node ub (Some ab) branches) subtree_size idx
      unmaterialized
| path_branch ub ab branches subtree_size idx child e :
    Z.testbit ab (idx / (subtree_size / branching_factor T)) = true ->
    branches !! Z.to_nat (idx / (subtree_size / branching_factor T)) =
      Some (Some child) ->
    root_to_leaf_path T child (subtree_size / branching_factor T)
      (idx mod (subtree_size / branching_factor T)) e ->
    root_to_leaf_path T (inner_node ub (Some ab) branches) subtree_size idx e.

(** The answer the specification gives at the end of a path: false at an
    unmaterialized branch, the negation of the leaf bit otherwise. *)
Definition spec_answer (e : path_end) : bool :=
  match e with
  | unmaterialized => false
  | leaf_bit b => negb b
  end.

(** ** What the specification says of the free-summary word *)

(** The subtree at branch [i] of a node, entered with
    [subtree_size = span T (S k)], contains an unallocated index. *)
Definition branch_has_free (T : word_type) (k : nat) (n : node_t) (i : Z)
  : Prop :=
  exists idx,
    i * span T k <= idx < (i + 1) * span T k /\
    allocated_in T k n idx = false.

(** The invariant as the specification states it, at every node: bit [i] of
    [unset_branches] is 1 if and only if branch [i] contains an unallocated
    index. *)
Fixpoint summary_exact (T : word_type) (k : nat) (n : node_t) {struct k}
  : Prop :=
  (exists w, unset_branches n = Some w /\
     forall i, 0 <= i < branching_factor T ->
       (Z.testbit w i = true <-> branch_has_free T k n i)) /\
  match n, k with
  | inner_node _ _ branches, S k' =>
      forall i child, branches !! i = Some (Some child) ->
        summary_exact T k' child
  | _, _ => True
  end.

(** ** Example trees *)

Definition or_new (T : word_type) (r : result tree_t) : tree_t :=
  match r with Ok t => t | _ => tree_new T end.

(** After [allocate_at(5)] on a new tree of 64-bit words. *)
Definition tree_with_5 : tree_t :=
  Eval vm_compute in or_new U64 (allocate_at U64 2 (tree_new U64) 5).

(** After [allocate_at(5000)] on a new tree of 64-bit words: one level. *)
Definition tree_with_5000 : tree_t :=
  Eval vm_compute in or_new U64 (allocate_at U64 3 (tree_new U64) 5000).

(** After [allocate_at(0)], ..., [allocate_at(63)] on a new tree of 64-bit
    words: word 0 of the leaf is full. *)
Definition tree_with_0_to_63 : tree_t :=
  Eval vm_compute in
    or_new U64 (allocate_all U64 2 (tree_new U64) (seqZ 0 64)).

(** ** The destructor *)

(** The nodes of a tree: a node, then the nodes below each branch that was
    written. *)
Fixpoint nodes_of (n : node_t) : list node_t :=
  n :: match n with
       | leaf_node _ _ _ => []
       | inner_node _ _ branches =>
           flat_map (fun b => match b with
                              | Some child => nodes_of child
                              | None => []
                              end) branches
       end.

(** A pointer on the stack of [~tree_t], with whether the destructor has set
    [is_leaf] of the node it points to. *)
Definition visit : Type := bool * node_t.

(** The [for] of [~tree_t]: the branches marked in [allocated_branches] are
    pushed, branch [i] first. *)
Fixpoint push_branches (T : word_type) (ab : Z)
    (branches : list (option node_t)) (i : Z) (count : nat)
    (stack : list visit) : result (list visit) :=
  match count with
  | O => Ok stack
  | S count' =>
      if test_bit T ab i then
        match branches !! Z.to_nat i with
        | Some (Some child) =>
            push_branches T ab branches (i + 1) count'
              ((false, child) :: stack)
        | _ => Undefined
        end
      else push_branches T ab branches (i + 1) count' stack
  end.

(** The [while] of [~tree_t], one unit of fuel per turn; the head of [stack]
    is its back.  [freed] lists the nodes given to [free], the last one
    first. *)
Fixpoint destroy_loop (T : word_type) (fuel : nat) (stack : list visit)
    (freed : list node_t) {struct fuel} : result (list node_t) :=
  match stack with
  | [] => Ok freed
  | (marked, node) :: rest =>
      match fuel with
      | O => OutOfFuel
      | S fuel' =>
          match node with
          | leaf_node _ _ _ => destroy_loop T fuel' rest (node :: freed)
          | inner_node _ ab branches =>
              if marked then destroy_loop T fuel' rest (node :: freed)
              else
                match ab with
                | None => Undefined
                | Some ab =>
                    stack ←
                      push_branches T ab branches 0
                        (Z.to_nat (branching_factor T))
                        ((true, node) :: rest);
                    destroy_loop T fuel' stack freed
                end
          end
      end
  end.

(** [tree_t<T>::~tree_t]: the nodes it frees. *)
Definition destroy (T : word_type) (fuel : nat) (t : tree_t)
  : result (list node_t) :=
  destroy_loop T fuel [(false, root t)] [].

(** * Properties *)

(** ** Words and bits *)

Lemma bits_per_word_cases T : bits_per_word T = 32 \/ bits_per_word T = 64.
Proof. destruct T; auto. Qed.

Lemma branching_factor_ge T : 2 <= branching_factor T.
Proof. unfold branching_factor. destruct (bits_per_word_cases T); lia. Qed.

Lemma all_ones_eq T : all_ones T = 2 ^ bits_per_word T - 1.
Proof. destruct T; reflexivity. Qed.

Lemma all_ones_word T : is_word T (all_ones T).
Proof. destruct T; unfold is_word; simpl; rewrite all_ones_eq; simpl; lia. Qed.

Lemma all_ones_testbit T i :
  0 <= i < bits_per_word T -> Z.testbit (all_ones T) i = true.
Proof.
  intros Hi. rewrite all_ones_eq.
  replace (2 ^ bits_per_word T - 1) with (Z.ones (bits_per_word T))
    by (rewrite Z.ones_equiv; lia).
  apply Z.ones_spec_low. lia.
Qed.

Lemma word_high_bits T w i :
  is_word T w -> bits_per_word T <= i -> Z.testbit w i = false.
Proof.
  intros [Hw0 Hw] Hi. destruct (Z.eq_dec w 0) as [->|Hne].
  - apply Z.bits_0.
  - apply Z.bits_above_log2; [lia|].
    apply Z.lt_le_trans with (bits_per_word T); [|lia].
    apply Z.log2_lt_pow2; lia.
Qed.

Lemma word_of_bits T w :
  0 <= w -> (forall i, bits_per_word T <= i -> Z.testbit w i = false) ->
  is_word T w.
Proof.
  intros Hw0 Hhigh. split; [assumption|].
  destruct (Z.eq_dec w 0) as [->|Hne].
  - apply Z.pow_pos_nonneg; destruct (bits_per_word_cases T); lia.
  - apply Z.log2_lt_pow2; [lia|].
    destruct (Z.lt_ge_cases (Z.log2 w) (bits_per_word T)) as [|Hge]; [assumption|].
    specialize (Hhigh _ Hge). rewrite Z.bit_log2 in Hhigh by lia. discriminate.
Qed.

Lemma cast_T_shiftl T bit :
  0 <= bit < bits_per_word T -> cast_T T (Z.shiftl 1 bit) = 2 ^ bit.
Proof.
  intros Hb. unfold cast_T. rewrite Z.shiftl_1_l.
  apply Z.mod_small. split; [apply Z.pow_nonneg; lia|].
  apply Z.pow_lt_mono_r; lia.
Qed.

Lemma test_bit_testbit T n bit :
  0 <= bit < bits_per_word T -> test_bit T n bit = Z.testbit n bit.
Proof.
  intros Hb. unfold test_bit. rewrite cast_T_shiftl by assumption.
  destruct (Z.testbit n bit) eqn:E.
  - apply negb_true_iff, Z.eqb_neq. intros H0.
    assert (Z.testbit (Z.land n (2 ^ bit)) bit = true) as Hbit.
    { rewrite Z.land_spec, E, Z.pow2_bits_true by lia. reflexivity. }
    rewrite H0, Z.bits_0 in Hbit. discriminate.
  - apply negb_false_iff, Z.eqb_eq. apply Z.bits_inj'. intros i Hi.
    rewrite Z.land_spec, Z.bits_0.
    destruct (Z.eq_dec i bit) as [->|Hne].
    + rewrite E. reflexivity.
    + rewrite Z.pow2_bits_false by lia. apply andb_false_r.
Qed.

Lemma set_bit_testbit T n bit i :
  0 <= bit < bits_per_word T -> 0 <= i ->
  Z.testbit (set_bit T n bit) i = (i =? bit) || Z.testbit n i.
Proof.
  intros Hb Hi. unfold set_bit. rewrite cast_T_shiftl by assumption.
  rewrite Z.lor_spec, Z.pow2_bits_eqb by lia.
  rewrite orb_comm, Z.eqb_sym. reflexivity.
Qed.

Lemma set_bit_word T n bit :
  is_word T n -> 0 <= bit < bits_per_word T -> is_word T (set_bit T n bit).
Proof.
  intros Hn Hb. apply word_of_bits.
  - unfold set_bit. rewrite cast_T_shiftl by assumption.
    apply Z.lor_nonneg. split; [apply Hn|apply Z.pow_nonneg; lia].
  - intros i Hi. rewrite set_bit_testbit by lia.
    rewrite (word_high_bits T n i) by assumption.
    destruct (Z.eqb_spec i bit); [lia|reflexivity].
Qed.

Lemma clear_bit_testbit T n bit i :
  is_word T n -> 0 <= bit < bits_per_word T -> 0 <= i ->
  Z.testbit (clear_bit T n bit) i = Z.testbit n i && negb (i =? bit).
Proof.
  intros Hn Hb Hi. unfold clear_bit. rewrite cast_T_shiftl by assumption.
  rewrite Z.land_spec.
  destruct (Z.lt_ge_cases i (bits_per_word T)) as [Hlt|Hge].
  - unfold cast_T. rewrite Z.mod_pow2_bits_low by lia.
    rewrite Z.lnot_spec, Z.pow2_bits_eqb by lia.
    rewrite Z.eqb_sym. reflexivity.
  - rewrite (word_high_bits T n i) by assumption. reflexivity.
Qed.

Lemma clear_bit_word T n bit :
  is_word T n -> 0 <= bit < bits_per_word T -> is_word T (clear_bit T n bit).
Proof.
  intros Hn Hb. apply word_of_bits.
  - unfold clear_bit. apply Z.land_nonneg. left. apply Hn.
  - intros i Hi. rewrite clear_bit_testbit by (assumption || lia).
    rewrite (word_high_bits T n i) by assumption. reflexivity.
Qed.

(** ** Arithmetic of the descent *)

Lemma span_pos T k : 0 < span T k.
Proof.
  unfold span. apply Z.pow_pos_nonneg; [|lia].
  pose proof (branching_factor_ge T). lia.
Qed.

Lemma span_S T k : span T (S k) = branching_factor T * span T k.
Proof. unfold span. rewrite Nat2Z.inj_succ, Z.pow_succ_r by lia. reflexivity. Qed.

Lemma span_0 T : span T 0 = 1.
Proof. reflexivity. Qed.

Lemma span_1 T : span T 1 = branching_factor T.
Proof. unfold span. apply Z.pow_1_r. Qed.

Lemma span_div T k : span T (S k) / branching_factor T = span T k.
Proof.
  rewrite span_S, Z.mul_comm. apply Z.div_mul.
  pose proof (branching_factor_ge T). lia.
Qed.

Lemma span_mono T k k' : (k <= k')%nat -> span T k <= span T k'.
Proof.
  intros H. unfold span. apply Z.pow_le_mono_r; [|lia].
  pose proof (branching_factor_ge T). lia.
Qed.

Lemma bucket_range T k idx :
  0 <= idx < span T (S k) ->
  0 <= idx / span T k < branching_factor T /\
  0 <= idx mod span T k < span T k.
Proof.
  intros [H0 H]. pose proof (span_pos T k) as Hp. rewrite span_S in H.
  split; [split|].
  - apply Z.div_pos; lia.
  - apply Z.div_lt_upper_bound; lia.
  - apply Z.mod_pos_bound. lia.
Qed.

Lemma bucket_split T k idx j :
  idx / span T k = j / span T k -> idx mod span T k = j mod span T k ->
  idx = j.
Proof.
  intros Hd Hm. pose proof (span_pos T k) as Hp.
  rewrite (Z.div_mod idx (span T k)), (Z.div_mod j (span T k)) by lia.
  rewrite Hd, Hm. reflexivity.
Qed.

(** ** One turn of each loop *)

Lemma wf_node_leaf T k ub ab bits :
  wf_node T k (leaf_node ub ab bits) <->
  (k <= 1)%nat /\ ub = Some (all_ones T) /\
  length bits = Z.to_nat (branching_factor T) /\
  (forall i w, bits !! i = Some w -> is_word T w).
Proof. destruct k; reflexivity. Qed.

Lemma wf_node_inner T k ub ab branches :
  wf_node T k (inner_node ub ab branches) ->
  exists k' abz,
    k = S k' /\ ab = Some abz /\ (ub = None \/ ub = Some (all_ones T)) /\
    is_word T abz /\ length branches = Z.to_nat (branching_factor T) /\
    forall i, (i < Z.to_nat (branching_factor T))%nat ->
      if Z.testbit abz (Z.of_nat i)
      then exists child,
             branches !! i = Some (Some child) /\ wf_node T k' child
      else branches !! i = Some None.
Proof.
  destruct k as [|k']; simpl; [tauto|].
  intros (Hub & abz & -> & Hw & Hlen & Hbr). exists k', abz.
  split; [reflexivity|]. split; [reflexivity|]. split; [exact Hub|].
  split; [exact Hw|]. split; [exact Hlen|exact Hbr].
Qed.

Lemma wf_leaf_word T k ub ab bits idx :
  wf_node T k (leaf_node ub ab bits) -> 0 <= idx < span T (S k) ->
  exists w, bits !! Z.to_nat (idx / span T k) = Some w /\ is_word T w /\
            0 <= idx mod span T k < bits_per_word T.
Proof.
  intros Hwf Hidx. apply wf_node_leaf in Hwf.
  destruct Hwf as (Hk & _ & Hlen & Hbits).
  destruct (bucket_range T _ idx Hidx) as [Hb Hm].
  destruct (lookup_lt_is_Some_2 bits (Z.to_nat (idx / span T k)))
    as [w Hw]; [lia|].
  exists w; split; [assumption|split; [eauto|]].
  pose proof (span_mono T k 1 Hk) as Hs. rewrite span_1 in Hs.
  unfold branching_factor in *. lia.
Qed.

Lemma is_allocated_loop_leaf T fuel k ub ab bits idx w :
  0 <= idx < span T (S k) ->
  bits !! Z.to_nat (idx / span T k) = Some w ->
  0 <= idx mod span T k < bits_per_word T ->
  is_allocated_loop T (S fuel) (leaf_node ub ab bits) (span T (S k)) idx =
  Ok (negb (Z.testbit w (idx mod span T k))).
Proof.
  intros Hidx Hw Hm. simpl. rewrite span_div.
  pose proof (span_pos T k) as Hp.
  destruct (Z.eqb_spec (span T k) 0) as [|_]; [lia|].
  rewrite Hw. destruct (Z.ltb_spec (idx mod span T k) (bits_per_word T)); [|lia].
  rewrite test_bit_testbit by lia. reflexivity.
Qed.

Lemma is_allocated_loop_inner T fuel k ub abz branches idx :
  0 <= idx < span T (S k) ->
  is_allocated_loop T (S fuel) (inner_node ub (Some abz) branches)
    (span T (S k)) idx =
  if Z.testbit abz (idx / span T k) then
    match branches !! Z.to_nat (idx / span T k) with
    | Some (Some child) =>
        is_allocated_loop T fuel child (span T k) (idx mod span T k)
    | _ => Undefined
    end
  else Ok false.
Proof.
  intros Hidx. simpl. rewrite span_div.
  pose proof (span_pos T k) as Hp.
  destruct (bucket_range T _ idx Hidx) as [Hb Hm].
  destruct (Z.eqb_spec (span T k) 0) as [|_]; [lia|].
  destruct (Z.ltb_spec (idx / span T k) (branching_factor T)); [|lia].
  rewrite test_bit_testbit by (unfold branching_factor in *; lia).
  destruct (Z.testbit abz (idx / span T k)); reflexivity.
Qed.

Lemma allocate_at_loop_leaf T fuel k ub ab bits lvl idx ar w :
  0 <= idx < span T (S k) ->
  bits !! Z.to_nat (idx / span T k) = Some w ->
  0 <= idx mod span T k < bits_per_word T ->
  allocate_at_loop T (S fuel) (leaf_node ub ab bits) (span T (S k)) lvl idx ar =
  Ok (leaf_node ub ab
        (<[Z.to_nat (idx / span T k) := clear_bit T w (idx mod span T k)]> bits),
      if Z.testbit w (idx mod span T k) then cast_u64 (ar + 1) else ar).
Proof.
  intros Hidx Hw Hm. simpl. rewrite span_div.
  pose proof (span_pos T k) as Hp.
  destruct (Z.eqb_spec (span T k) 0) as [|_]; [lia|].
  rewrite Hw. destruct (Z.ltb_spec (idx mod span T k) (bits_per_word T)); [|lia].
  rewrite test_bit_testbit by lia. reflexivity.
Qed.

Lemma allocate_at_loop_inner T fuel k ub abz branches lvl idx ar :
  0 <= idx < span T (S k) ->
  allocate_at_loop T (S fuel) (inner_node ub (Some abz) branches)
    (span T (S k)) lvl idx ar =
  let bucket := idx / span T k in
  match (if Z.testbit abz bucket then branches !! Z.to_nat bucket
         else (<[Z.to_nat bucket := Some (new_branch T lvl)]> branches)
                !! Z.to_nat bucket) with
  | Some (Some child) =>
      '(child, ar) ← allocate_at_loop T fuel child (span T k)
                        (cast_u64 (lvl - 1)) (idx mod span T k) ar;
      Ok (inner_node ub
            (Some (if Z.testbit abz bucket then abz else set_bit T abz bucket))
            (<[Z.to_nat bucket := Some child]> branches), ar)
  | _ => Undefined
  end.
Proof.
  intros Hidx. simpl. rewrite span_div.
  pose proof (span_pos T k) as Hp.
  destruct (bucket_range T _ idx Hidx) as [Hb Hm].
  destruct (Z.eqb_spec (span T k) 0) as [|_]; [lia|].
  destruct (Z.ltb_spec (idx / span T k) (branching_factor T)); [|lia].
  rewrite test_bit_testbit by (unfold branching_factor in *; lia).
  destruct (Z.testbit abz (idx / span T k)); simpl; [reflexivity|].
  destruct (_ !! _) as [[child|]|]; try reflexivity.
  destruct (allocate_at_loop _ _ _ _ _ _ _) as [[c a]| |]; simpl;
    try reflexivity.
  rewrite list_insert_insert_eq. reflexivity.
Qed.

Lemma wf_inner_branch T k ub abz branches b :
  wf_node T (S k) (inner_node ub (Some abz) branches) ->
  0 <= b < branching_factor T ->
  if Z.testbit abz b
  then exists child,
         branches !! Z.to_nat b = Some (Some child) /\ wf_node T k child
  else branches !! Z.to_nat b = Some None.
Proof.
  intros Hwf Hb. apply wf_node_inner in Hwf.
  destruct Hwf as (k' & abz' & [= <-] & [= <-] & _ & _ & _ & Hbr).
  specialize (Hbr (Z.to_nat b)). rewrite Z2Nat.id in Hbr by lia.
  apply Hbr. lia.
Qed.

(** ** The descent of [is_allocated] *)

Lemma is_allocated_loop_spec T k : forall n idx fuel,
  wf_node T k n -> 0 <= idx < span T (S k) -> (k < fuel)%nat ->
  is_allocated_loop T fuel n (span T (S k)) idx = Ok (allocated_in T k n idx).
Proof.
  unfold allocated_in.
  induction k as [|k IH]; intros n idx fuel Hwf Hidx Hfuel;
    (destruct fuel as [|fuel]; [lia|]);
    destruct n as [ub ab bits|ub ab branches].
  - destruct (wf_leaf_word _ _ _ _ _ _ Hwf Hidx) as (w & Hw & _ & Hm).
    rewrite !(is_allocated_loop_leaf _ _ _ _ _ _ _ w) by assumption.
    reflexivity.
  - destruct Hwf.
  - destruct (wf_leaf_word _ _ _ _ _ _ Hwf Hidx) as (w & Hw & _ & Hm).
    rewrite !(is_allocated_loop_leaf _ _ _ _ _ _ _ w) by assumption.
    reflexivity.
  - destruct (wf_node_inner _ _ _ _ _ Hwf)
      as (k' & abz & [= <-] & -> & _ & _ & _ & _).
    rewrite !is_allocated_loop_inner by assumption.
    destruct (bucket_range T _ idx Hidx) as [Hb Hm].
    pose proof (wf_inner_branch _ _ _ _ _ _ Hwf Hb) as Hbr.
    destruct (Z.testbit abz (idx / span T (S k))); [|reflexivity].
    destruct Hbr as (child & -> & Hchild).
    rewrite (IH child _ fuel) by (assumption || lia).
    destruct (is_allocated_loop T (S k) child _ _); reflexivity.
Qed.

Lemma allocated_in_leaf T k ub ab bits idx w :
  0 <= idx < span T (S k) ->
  bits !! Z.to_nat (idx / span T k) = Some w ->
  0 <= idx mod span T k < bits_per_word T ->
  allocated_in T k (leaf_node ub ab bits) idx =
  negb (Z.testbit w (idx mod span T k)).
Proof.
  intros Hidx Hw Hm. unfold allocated_in.
  rewrite (is_allocated_loop_leaf _ _ _ _ _ _ _ w) by assumption.
  reflexivity.
Qed.

Lemma allocated_in_inner T k ub abz branches idx :
  wf_node T (S k) (inner_node ub (Some abz) branches) ->
  0 <= idx < span T (S (S k)) ->
  allocated_in T (S k) (inner_node ub (Some abz) branches) idx =
  if Z.testbit abz (idx / span T (S k)) then
    match branches !! Z.to_nat (idx / span T (S k)) with
    | Some (Some child) => allocated_in T k child (idx mod span T (S k))
    | _ => false
    end
  else false.
Proof.
  intros Hwf Hidx. unfold allocated_in at 1.
  rewrite is_allocated_loop_inner by assumption.
  destruct (bucket_range T _ idx Hidx) as [Hb Hm].
  pose proof (wf_inner_branch _ _ _ _ _ _ Hwf Hb) as Hbr.
  destruct (Z.testbit abz (idx / span T (S k))); [|reflexivity].
  destruct Hbr as (child & -> & Hchild).
  rewrite (is_allocated_loop_spec T k) by (assumption || lia).
  reflexivity.
Qed.

(** ** Fresh branches *)

Lemma init_leaf_wf T k : (k <= 1)%nat -> wf_node T k (init_leaf T).
Proof.
  intros Hk. apply wf_node_leaf. split; [assumption|]. split; [reflexivity|].
  split; [apply length_replicate|].
  intros i w Hw. apply lookup_replicate in Hw as [-> _]. apply all_ones_word.
Qed.

Lemma new_branch_wf T k : wf_node T k (new_branch T (Z.of_nat k)).
Proof.
  unfold new_branch. destruct k as [|k].
  - apply init_leaf_wf. lia.
  - destruct (Z.eqb_spec (Z.of_nat (S k)) 0) as [|_]; [lia|].
    simpl. split; [left; reflexivity|]. exists 0.
    split; [reflexivity|]. split.
    { split; [lia|]. apply Z.pow_pos_nonneg;
        destruct (bits_per_word_cases T); lia. }
    split; [apply length_replicate|].
    intros i Hi. rewrite Z.bits_0. apply lookup_replicate. auto.
Qed.

Lemma new_branch_allocated_in T k idx :
  0 <= idx < span T (S k) ->
  allocated_in T k (new_branch T (Z.of_nat k)) idx = false.
Proof.
  intros Hidx. pose proof (new_branch_wf T k) as Hwf.
  unfold new_branch in *. destruct k as [|k].
  - change (Z.of_nat 0 =? 0) with true in *. cbv iota in *.
    destruct (wf_leaf_word _ _ _ _ _ _ Hwf Hidx) as (w & Hw & _ & Hm).
    unfold init_leaf. rewrite (allocated_in_leaf _ _ _ _ _ _ w) by assumption.
    apply lookup_replicate in Hw as [-> _].
    rewrite all_ones_testbit by assumption. reflexivity.
  - destruct (Z.eqb_spec (Z.of_nat (S k)) 0) as [|_]; [lia|].
    rewrite allocated_in_inner by assumption.
    rewrite Z.bits_0. reflexivity.
Qed.

Lemma level_pred k :
  Z.of_nat (S k) < 2 ^ 64 ->
  cast_u64 (Z.of_nat (S k) - 1) = Z.of_nat k.
Proof.
  intros H. unfold cast_u64.
  replace (Z.of_nat (S k) - 1) with (Z.of_nat k) by lia.
  apply Z.mod_small. lia.
Qed.

(** ** Writing one branch of an inner node *)

Section inner_insert.
Context (T : word_type) (k : nat) (ub : option Z) (abz : Z)
        (branches : list (option node_t)) (b : Z) (child' : node_t).
Hypothesis Hwf : wf_node T (S k) (inner_node ub (Some abz) branches).
Hypothesis Hb : 0 <= b < branching_factor T.
Hypothesis Hchild' : wf_node T k child'.

Lemma marked_testbit i :
  0 <= i ->
  Z.testbit (if Z.testbit abz b then abz else set_bit T abz b) i =
  (i =? b) || Z.testbit abz i.
Proof.
  intros Hi. destruct (Z.testbit abz b) eqn:E.
  - destruct (Z.eqb_spec i b) as [->|]; [rewrite E|]; reflexivity.
  - apply set_bit_testbit; unfold branching_factor in *; lia.
Qed.

Lemma marked_word :
  is_word T (if Z.testbit abz b then abz else set_bit T abz b).
Proof.
  apply wf_node_inner in Hwf.
  destruct Hwf as (? & ? & _ & [= <-] & _ & Hw & _).
  destruct (Z.testbit abz b); [assumption|].
  apply set_bit_word; unfold branching_factor in *; [assumption|lia].
Qed.

Lemma wf_inner_insert :
  wf_node T (S k)
    (inner_node ub
       (Some (if Z.testbit abz b then abz else set_bit T abz b))
       (<[Z.to_nat b := Some child']> branches)).
Proof.
  pose proof Hwf as Hwf0. apply wf_node_inner in Hwf0.
  destruct Hwf0 as (? & ? & [= <-] & [= <-] & Hub & Hw & Hlen & Hbr).
  simpl. split; [assumption|]. exists (if Z.testbit abz b then abz else set_bit T abz b). split; [reflexivity|].
  split; [apply marked_word|].
  split; [rewrite length_insert; assumption|].
  intros i Hi. rewrite marked_testbit by lia.
  destruct (decide (i = Z.to_nat b)) as [->|Hne].
  - rewrite Z2Nat.id, Z.eqb_refl by lia. simpl.
    exists child'. split; [|assumption].
    apply list_lookup_insert_eq. lia.
  - destruct (Z.eqb_spec (Z.of_nat i) b) as [|_]; [lia|]. simpl.
    specialize (Hbr i Hi).
    destruct (Z.testbit abz (Z.of_nat i)).
    + destruct Hbr as (c & Hc & Hcwf). exists c.
      rewrite list_lookup_insert_ne by congruence. auto.
    + rewrite list_lookup_insert_ne by congruence. assumption.
Qed.

Lemma allocated_in_insert_eq j :
  0 <= j < span T (S (S k)) -> j / span T (S k) = b ->
  allocated_in T (S k) (inner_node ub
       (Some (if Z.testbit abz b then abz else set_bit T abz b))
       (<[Z.to_nat b := Some child']> branches)) j =
  allocated_in T k child' (j mod span T (S k)).
Proof.
  intros Hj Hjb. rewrite allocated_in_inner by (apply wf_inner_insert || assumption).
  rewrite Hjb, marked_testbit, Z.eqb_refl by lia. simpl.
  rewrite list_lookup_insert_eq; [reflexivity|].
  apply wf_node_inner in Hwf.
  destruct Hwf as (? & ? & _ & _ & _ & _ & Hlen & _). lia.
Qed.

Lemma allocated_in_insert_ne j :
  0 <= j < span T (S (S k)) -> j / span T (S k) <> b ->
  allocated_in T (S k) (inner_node ub
       (Some (if Z.testbit abz b then abz else set_bit T abz b))
       (<[Z.to_nat b := Some child']> branches)) j =
  allocated_in T (S k) (inner_node ub (Some abz) branches) j.
Proof.
  intros Hj Hjb. destruct (bucket_range T _ j Hj) as [Hbj _].
  rewrite !allocated_in_inner by (apply wf_inner_insert || assumption).
  rewrite marked_testbit by lia.
  destruct (Z.eqb_spec (j / span T (S k)) b) as [|_]; [contradiction|]. simpl.
  rewrite list_lookup_insert_ne; [reflexivity|].
  intros Heq. apply Z2Nat.inj in Heq; lia.
Qed.
End inner_insert.


(** ** The descent of [allocate_at] *)

Lemma allocate_at_loop_leaf_spec T k ub ab bits idx lvl :
  let n := leaf_node ub ab bits in
  wf_node T k n -> 0 <= idx < span T (S k) ->
  exists n',
    (forall fuel ar, (k < fuel)%nat ->
       allocate_at_loop T fuel n (span T (S k)) lvl idx ar =
       Ok (n', if allocated_in T k n idx then ar else cast_u64 (ar + 1))) /\
    wf_node T k n' /\
    unset_branches n' = unset_branches n /\
    allocated_in T k n' idx = true /\
    (forall j, 0 <= j < span T (S k) -> j <> idx ->
       allocated_in T k n' j = allocated_in T k n j).
Proof.
  intros n Hwf Hidx. subst n.
  destruct (wf_leaf_word _ _ _ _ _ _ Hwf Hidx) as (w & Hw & Hword & Hm).
  destruct (bucket_range T _ idx Hidx) as [Hb _].
  assert (Z.to_nat (idx / span T k) < length bits)%nat as Hlt
    by (eapply lookup_lt_Some; eassumption).
  pose proof Hwf as Hwf0. apply wf_node_leaf in Hwf0.
  destruct Hwf0 as (Hk1 & Hub & Hlen & Hbits).
  exists (leaf_node ub ab
            (<[Z.to_nat (idx / span T k) := clear_bit T w (idx mod span T k)]>
               bits)).
  split; [|split; [|split; [reflexivity|split]]].
  - intros [|fuel] ar Hfuel; [lia|].
    rewrite (allocate_at_loop_leaf _ _ _ _ _ _ _ _ _ w),
            (allocated_in_leaf _ _ _ _ _ _ w) by assumption.
    destruct (Z.testbit w _); reflexivity.
  - apply wf_node_leaf. split; [assumption|]. split; [assumption|].
    split; [rewrite length_insert; assumption|].
    intros i w' Hw'.
    destruct (decide (i = Z.to_nat (idx / span T k))) as [->|Hne].
    + rewrite list_lookup_insert_eq in Hw' by assumption.
      injection Hw' as <-. apply clear_bit_word; assumption.
    + rewrite list_lookup_insert_ne in Hw' by congruence. eauto.
  - rewrite (allocated_in_leaf _ _ _ _ _ _ (clear_bit T w (idx mod span T k)))
      by (assumption || (apply list_lookup_insert_eq; assumption)).
    rewrite clear_bit_testbit, Z.eqb_refl by (assumption || lia).
    rewrite andb_false_r. reflexivity.
  - intros j Hj Hne.
    destruct (wf_leaf_word _ _ _ _ _ _ Hwf Hj) as (wj & Hwj & _ & Hmj).
    destruct (bucket_range T _ j Hj) as [Hbj _].
    rewrite (allocated_in_leaf _ _ _ _ bits j wj) by assumption.
    destruct (Z.eq_dec (j / span T k) (idx / span T k)) as [Heq|Hneq].
    + assert (wj = w) as -> by (rewrite Heq in Hwj; congruence).
      rewrite (allocated_in_leaf _ _ _ _ _ j
                 (clear_bit T w (idx mod span T k)))
        by (assumption || (rewrite Heq; apply list_lookup_insert_eq; assumption)).
      rewrite clear_bit_testbit by (assumption || lia).
      destruct (Z.eqb_spec (j mod span T k) (idx mod span T k)) as [Hmeq|_].
      * exfalso. apply Hne. eapply bucket_split; eassumption.
      * rewrite andb_true_r. reflexivity.
    + rewrite (allocated_in_leaf _ _ _ _ _ j wj); [reflexivity|assumption| |assumption].
      rewrite list_lookup_insert_ne; [assumption|].
      intros Heq. apply Z2Nat.inj in Heq; lia.
Qed.

Lemma allocate_at_loop_spec T k : forall n idx,
  wf_node T k n -> 0 <= idx < span T (S k) -> Z.of_nat k < 2 ^ 64 ->
  exists n',
    (forall fuel ar, (k < fuel)%nat ->
       allocate_at_loop T fuel n (span T (S k)) (cast_u64 (Z.of_nat k - 1))
         idx ar =
       Ok (n', if allocated_in T k n idx then ar else cast_u64 (ar + 1))) /\
    wf_node T k n' /\
    unset_branches n' = unset_branches n /\
    allocated_in T k n' idx = true /\
    (forall j, 0 <= j < span T (S k) -> j <> idx ->
       allocated_in T k n' j = allocated_in T k n j).
Proof.
  induction k as [|k IH]; intros n idx Hwf Hidx Hk;
    destruct n as [ub ab bits|ub ab branches].
  - apply allocate_at_loop_leaf_spec; assumption.
  - destruct Hwf.
  - apply allocate_at_loop_leaf_spec; assumption.
  - destruct (wf_node_inner _ _ _ _ _ Hwf)
      as (k' & abz & [= <-] & -> & _ & _ & Hlen & _).
    destruct (bucket_range T _ idx Hidx) as [Hb Hm].
    pose proof (wf_inner_branch _ _ _ _ _ _ Hwf Hb) as Hbr.
    rewrite level_pred by assumption.
    set (b := idx / span T (S k)) in *.
    set (idx' := idx mod span T (S k)) in *.
    (* the node the loop moves to, old or fresh *)
    assert (exists child,
              wf_node T k child /\
              (if Z.testbit abz b then branches !! Z.to_nat b
               else (<[Z.to_nat b := Some (new_branch T (Z.of_nat k))]> branches)
                      !! Z.to_nat b) = Some (Some child) /\
              forall j, 0 <= j < span T (S (S k)) -> j / span T (S k) = b ->
                allocated_in T (S k) (inner_node ub (Some abz) branches) j =
                allocated_in T k child (j mod span T (S k)))
      as (child & Hchild & Hlook & Hold).
    { destruct (Z.testbit abz b) eqn:E.
      - destruct Hbr as (child & Hc & Hcwf). exists child.
        split; [assumption|]. split; [assumption|].
        intros j Hj Hjb. rewrite allocated_in_inner by assumption.
        rewrite Hjb, E, Hc. reflexivity.
      - exists (new_branch T (Z.of_nat k)). split; [apply new_branch_wf|].
        split; [apply list_lookup_insert_eq; lia|].
        intros j Hj Hjb. rewrite allocated_in_inner by assumption.
        rewrite Hjb, E. symmetry. apply new_branch_allocated_in.
        apply (bucket_range T (S k) j Hj). }
    destruct (IH child idx' Hchild Hm ltac:(lia))
      as (child' & Hloop & Hchild' & _ & Halloc & Hframe).
    eexists (inner_node ub (Some _) (<[Z.to_nat b := Some child']> branches)).
    split; [|split; [|split; [reflexivity|split]]].
    + intros [|fuel] ar Hfuel; [lia|].
      rewrite allocate_at_loop_inner by assumption. cbv zeta.
      fold b idx'. rewrite Hlook.
      rewrite (Hloop fuel ar) by lia. simpl.
      rewrite (Hold idx) by (assumption || reflexivity). reflexivity.
    + apply wf_inner_insert; assumption.
    + rewrite (allocated_in_insert_eq T k ub abz branches b child')
        by (assumption || reflexivity).
      assumption.
    + intros j Hj Hne. destruct (Z.eq_dec (j / span T (S k)) b) as [Heq|Hneq].
      * rewrite (allocated_in_insert_eq T k ub abz branches b child')
          by assumption.
        rewrite (Hold j) by assumption. apply Hframe.
        -- apply (bucket_range T (S k) j Hj).
        -- intros Hmeq. apply Hne. eapply bucket_split; eassumption.
      * apply (allocated_in_insert_ne T k ub abz branches b child');
          assumption.
Qed.

Lemma clear_bit_clear T w bit :
  is_word T w -> 0 <= bit < bits_per_word T ->
  Z.testbit w bit = false -> clear_bit T w bit = w.
Proof.
  intros Hw Hb E. apply Z.bits_inj'. intros i Hi.
  rewrite clear_bit_testbit by assumption.
  destruct (Z.eqb_spec i bit) as [->|_].
  - rewrite E. reflexivity.
  - apply andb_true_r.
Qed.


(** ** Capacities are powers of two *)

Lemma span_pow2 T k :
  span T k = 2 ^ (Z.log2 (branching_factor T) * Z.of_nat k).
Proof.
  unfold span. rewrite Z.pow_mul_r by (destruct T; simpl; lia).
  destruct T; reflexivity.
Qed.

Lemma capacity_limit_pow2 T :
  capacity_limit T = 2 ^ (match T with U32 => 35 | U64 => 60 end).
Proof. destruct T; reflexivity. Qed.

Lemma span_le_pow2 T k e :
  0 <= e -> (span T k <= 2 ^ e <-> Z.log2 (branching_factor T) * Z.of_nat k <= e).
Proof.
  intros He. rewrite span_pow2. symmetry.
  apply Z.pow_le_mono_r_iff; lia.
Qed.

Lemma span_lt_pow2 T k e :
  0 <= e -> (span T k < 2 ^ e <-> Z.log2 (branching_factor T) * Z.of_nat k < e).
Proof.
  intros He. rewrite span_pow2. symmetry.
  apply Z.pow_lt_mono_r_iff; lia.
Qed.

Lemma span_limit_levels T k :
  span T (k + 2) <= capacity_limit T -> (k <= 8)%nat.
Proof.
  rewrite capacity_limit_pow2. intros H.
  apply span_le_pow2 in H; destruct T; simpl in *; lia.
Qed.

Lemma shape_inv_levels T t :
  shape_inv T t -> 0 <= levels t <= 8.
Proof.
  intros (k & -> & Hc & Hlim & _). rewrite Hc in Hlim.
  apply span_limit_levels in Hlim. lia.
Qed.

(** ** [is_allocated] on a tree *)

Lemma tree_allocated_eq T t k idx :
  levels t = Z.of_nat k -> current_max_size t = span T (k + 2) ->
  wf_node T (S k) (root t) -> 0 <= idx ->
  tree_allocated T t idx =
  if current_max_size t <=? idx then false
  else allocated_in T (S k) (root t) idx.
Proof.
  intros Hl Hc Hwf Hidx. unfold tree_allocated, is_allocated.
  destruct (Z.leb_spec (current_max_size t) idx) as [|Hlt]; [reflexivity|].
  rewrite Hl, Hc.
  replace (Z.to_nat (Z.of_nat k + 2)) with (S (S k)) by lia.
  replace (k + 2)%nat with (S (S k)) in * by lia.
  rewrite is_allocated_loop_spec by (assumption || lia). reflexivity.
Qed.

Lemma is_allocated_spec T t idx fuel :
  shape_inv T t -> 0 <= idx -> enough_fuel t fuel ->
  is_allocated T fuel t idx = Ok (tree_allocated T t idx).
Proof.
  intros (k & Hl & Hc & _ & Hwf & _) Hidx Hfuel.
  rewrite (tree_allocated_eq T t k) by assumption.
  unfold is_allocated, enough_fuel in *.
  destruct (Z.leb_spec (current_max_size t) idx) as [|Hlt]; [reflexivity|].
  rewrite Hc. replace (k + 2)%nat with (S (S k)) in * by lia.
  apply is_allocated_loop_spec; [assumption|lia|lia].
Qed.

Lemma tree_allocated_lt T t idx :
  tree_allocated T t idx = true -> idx < current_max_size t.
Proof.
  unfold tree_allocated, is_allocated.
  destruct (Z.leb_spec (current_max_size t) idx); [discriminate|lia].
Qed.

(** ** Growth *)

Lemma capacity_limit_u64 T : capacity_limit T < 2 ^ 64.
Proof. destruct T; simpl; lia. Qed.

Lemma cast_T_1 T : cast_T T 1 = 1.
Proof. destruct T; reflexivity. Qed.

Lemma testbit_1 i : 0 <= i -> Z.testbit 1 i = (i =? 0).
Proof.
  intros Hi. change 1 with (2 ^ 0). rewrite Z.pow2_bits_eqb by lia.
  apply Z.eqb_sym.
Qed.

Lemma sum_list_with_no_branch (f : node_t -> nat) n :
  sum_list_with (fun b : option node_t =>
                   match b with Some child => f child | None => 0%nat end)
                (replicate n None) = 0%nat.
Proof. induction n as [|n IH]; simpl; [reflexivity|assumption]. Qed.

Lemma wrap_root_spec T t :
  shape_inv T t ->
  current_max_size t * branching_factor T <= capacity_limit T ->
  exists t',
    wrap_root T t = Ok t' /\
    shape_inv T t' /\
    levels t' = levels t + 1 /\
    current_max_size t' = current_max_size t * branching_factor T /\
    allocated_resources t' = allocated_resources t /\
    (forall j, 0 <= j -> tree_allocated T t' j = tree_allocated T t j) /\
    node_count (root t') = S (node_count (root t)) /\
    (forall d, nodes_at_depth (S d) (root t') = nodes_at_depth d (root t)).
Proof.
  intros Hshape Hlim. pose proof (shape_inv_levels T t Hshape) as Hlev.
  destruct Hshape as (k & Hl & Hc & Hcap & Hwf & Hub).
  pose proof (capacity_limit_u64 T) as H64.
  pose proof (branching_factor_ge T) as HB.
  pose proof (span_pos T (k + 2)) as Hpos.
  unfold wrap_root. rewrite Hub, Z.eqb_refl, cast_T_1.
  eexists. split; [reflexivity|]. simpl.
  assert (cast_u64 (levels t + 1) = Z.of_nat (S k)) as Hl'.
  { unfold cast_u64. rewrite Z.mod_small; lia. }
  assert (span T (S k + 2) = current_max_size t * branching_factor T) as HcS.
  { rewrite Hc. change (S k + 2)%nat with (S (k + 2)). rewrite span_S. lia. }
  assert (cast_u64 (current_max_size t * branching_factor T) =
          span T (S k + 2)) as Hc'.
  { unfold cast_u64. rewrite Z.mod_small; lia. }
  set (new_root := inner_node _ _ _).
  assert (wf_node T (S (S k)) new_root) as Hwf'.
  { subst new_root. simpl. split; [right; reflexivity|]. exists 1.
    split; [reflexivity|]. split.
    { split; [lia|]. destruct (bits_per_word_cases T) as [-> | ->]; lia. }
    split; [cbn [length]; rewrite length_replicate; lia|].
    intros i Hi. rewrite testbit_1 by lia.
    destruct i as [|i]; simpl.
    - exists (root t). auto.
    - apply lookup_replicate. split; [reflexivity|lia]. }
  split.
  { exists (S k). simpl. rewrite Hc'.
    split; [assumption|]. split; [reflexivity|]. split; [lia|].
    split; [assumption|reflexivity]. }
  split; [lia|]. split; [lia|].
  split; [reflexivity|]. split; [|split].
  - intros j Hj.
    rewrite (tree_allocated_eq T _ (S k)), (tree_allocated_eq T t k)
      by assumption.
    simpl. rewrite Hc', Hc.
    replace (S k + 2)%nat with (S (S (S k))) by lia.
    replace (k + 2)%nat with (S (S k)) by lia.
    pose proof (span_S T (S (S k))) as HS.
    pose proof (span_pos T (S (S k))) as Hp.
    destruct (Z.leb_spec (span T (S (S (S k)))) j) as [Hge|Hlt].
    { destruct (Z.leb_spec (span T (S (S k))) j) as [|Hlt]; [reflexivity|nia]. }
    subst new_root. rewrite allocated_in_inner by (assumption || lia).
    destruct (Z.leb_spec (span T (S (S k))) j) as [Hge|Hlt'].
    + rewrite testbit_1 by (apply Z.div_pos; lia).
      destruct (Z.eqb_spec (j / span T (S (S k))) 0) as [E|_]; [|reflexivity].
      apply Z.div_small_iff in E; lia.
    + rewrite Z.div_small, Z.mod_small by lia. reflexivity.
  - subst new_root. simpl. rewrite sum_list_with_no_branch. lia.
  - intros d. subst new_root. simpl. rewrite sum_list_with_no_branch. lia.
Qed.

Lemma move_max_size_eq T fuel t idx :
  move_max_size T fuel t idx =
  if current_max_size t <=? idx then
    match fuel with
    | O => OutOfFuel
    | S fuel' => t ← wrap_root T t; move_max_size T fuel' t idx
    end
  else Ok t.
Proof. destruct fuel; reflexivity. Qed.

(** Once the capacity has wrapped around to 0 the [while] never ends. *)
Lemma move_max_size_zero T fuel : forall t idx t',
  current_max_size t = 0 -> 0 <= idx -> move_max_size T fuel t idx <> Ok t'.
Proof.
  induction fuel as [|fuel IH]; intros t idx t' Hc Hidx;
    rewrite move_max_size_eq, Hc;
    (destruct (Z.leb_spec 0 idx); [|lia]); [discriminate|].
  unfold wrap_root. destruct (unset_branches (root t)); [|discriminate].
  simpl. apply IH; [|assumption]. simpl. rewrite Hc. reflexivity.
Qed.

Lemma wrap_root_overflow T t idx t1 :
  shape_inv T t -> is_T T idx -> current_max_size t <= idx ->
  capacity_limit T < current_max_size t * branching_factor T ->
  wrap_root T t = Ok t1 -> current_max_size t1 = 0.
Proof.
  intros (k & Hl & Hc & Hcap & Hwf & Hub) [_ Hidx] Hle Hover Hwrap.
  unfold wrap_root in Hwrap. rewrite Hub in Hwrap. injection Hwrap as <-.
  simpl. rewrite Hc in *. rewrite capacity_limit_pow2 in *.
  assert (span T (k + 2) < 2 ^ bits_per_word T) as Hlt by lia.
  replace (span T (k + 2) * branching_factor T) with (span T (S (k + 2))) in *
    by (rewrite span_S; lia).
  destruct T; simpl in Hlt.
  - apply span_lt_pow2 in Hlt; [|lia].
    apply span_le_pow2 in Hcap; [|lia].
    apply Z.lt_nge in Hover. exfalso. apply Hover.
    apply span_le_pow2; simpl in *; lia.
  - apply span_le_pow2 in Hcap; [|lia].
    assert (k = 8%nat) as ->.
    { apply Z.lt_nge in Hover. rewrite span_le_pow2 in Hover by lia.
      simpl in *. lia. }
    reflexivity.
Qed.

Lemma move_max_size_spec T fuel : forall t idx t',
  shape_inv T t -> is_T T idx -> move_max_size T fuel t idx = Ok t' ->
  shape_inv T t' /\
  idx < current_max_size t' /\
  allocated_resources t' = allocated_resources t /\
  levels t <= levels t' /\
  current_max_size t <= current_max_size t' /\
  (forall j, 0 <= j -> tree_allocated T t' j = tree_allocated T t j) /\
  node_count (root t') =
    (node_count (root t) + Z.to_nat (levels t' - levels t))%nat /\
  (forall d, nodes_at_depth (Z.to_nat (levels t' - levels t) + d) (root t') =
             nodes_at_depth d (root t)) /\
  (forall d, (d < Z.to_nat (levels t' - levels t))%nat ->
             nodes_at_depth d (root t') = 1%nat).
Proof.
  induction fuel as [|fuel IH]; intros t idx t' Hshape Hidx;
    rewrite move_max_size_eq;
    (destruct (Z.leb_spec (current_max_size t) idx) as [Hle|Hlt];
     [|intros [= <-]; rewrite Z.sub_diag; simpl;
       repeat split; auto; lia]); [discriminate|].
  destruct (Z.le_gt_cases (current_max_size t * branching_factor T)
              (capacity_limit T)) as [Hfit|Hover].
  - destruct (wrap_root_spec T t Hshape Hfit)
      as (t1 & -> & Hshape1 & Hl1 & Hc1 & Ha1 & Hal1 & Hn1 & Hd1).
    simpl. intros Hgrow.
    destruct (IH t1 idx t' Hshape1 Hidx Hgrow)
      as (Hshape' & Hidx' & Ha' & Hl' & Hc' & Hal' & Hn' & Hd' & Hr').
    pose proof (branching_factor_ge T) as HB.
    assert (0 < current_max_size t) as Hpos.
    { destruct Hshape as (k & _ & -> & _). apply span_pos. }
    assert (Z.to_nat (levels t' - levels t) =
            S (Z.to_nat (levels t' - levels t1))) as Hw by lia.
    rewrite Hw. repeat split; try assumption; try lia.
    + intros j Hj. rewrite Hal', Hal1 by assumption. reflexivity.
    + intros d.
      replace (S (Z.to_nat (levels t' - levels t1)) + d)%nat
        with (Z.to_nat (levels t' - levels t1) + S d)%nat by lia.
      rewrite Hd', Hd1. reflexivity.
    + intros d Hd.
      destruct (decide (d < Z.to_nat (levels t' - levels t1))%nat) as [Hlt|Hge].
      * apply Hr'. assumption.
      * assert (d = (Z.to_nat (levels t' - levels t1) + 0)%nat) as -> by lia.
        rewrite Hd'. reflexivity.
  - destruct (wrap_root T t) as [t1| |] eqn:Hwrap; simpl; try discriminate.
    intros Hgrow. exfalso.
    eapply (move_max_size_zero T fuel t1 idx t'); [|apply Hidx|exact Hgrow].
    eapply wrap_root_overflow; eassumption.
Qed.

Lemma move_max_size_total T t idx :
  shape_inv T t -> 0 <= idx < index_limit T ->
  exists t', forall fuel, (8 <= fuel)%nat -> move_max_size T fuel t idx = Ok t'.
Proof.
  intros Hshape Hidx.
  assert (forall m t, shape_inv T t -> 8 - levels t <= Z.of_nat m ->
            exists t', forall fuel, (m <= fuel)%nat ->
                         move_max_size T fuel t idx = Ok t') as Hgen.
  { clear t Hshape. induction m as [|m IH]; intros t Hshape Hm.
    all: destruct (Z.leb_spec (current_max_size t) idx) as [Hle|Hlt];
      [|exists t; intros fuel _; rewrite move_max_size_eq;
        destruct (Z.leb_spec (current_max_size t) idx); [lia|reflexivity]].
    all: assert (current_max_size t * branching_factor T <= capacity_limit T
                 /\ levels t < 8) as [Hfit Hlev].
    1,3: destruct Hshape as (k & Hl & Hc & Hcap & _);
      rewrite Hc, Hl in *; rewrite capacity_limit_pow2;
      replace (span T (k + 2) * branching_factor T) with (span T (S (k + 2)))
        by (rewrite span_S; lia);
      assert (span T (k + 2) < index_limit T) as Hs by lia;
      rewrite span_le_pow2 by (destruct T; lia);
      destruct T; simpl in Hs; apply span_lt_pow2 in Hs; simpl in *; lia.
    - lia.
    - destruct (wrap_root_spec T t Hshape Hfit)
        as (t1 & Hwrap & Hshape1 & Hl1 & _).
      destruct (IH t1 Hshape1 ltac:(lia)) as (t' & Ht').
      exists t'. intros [|fuel] Hfuel; [lia|].
      rewrite move_max_size_eq.
      destruct (Z.leb_spec (current_max_size t) idx); [|lia].
      rewrite Hwrap. simpl. apply Ht'. lia. }
  pose proof (shape_inv_levels T t Hshape).
  apply (Hgen 8%nat t Hshape). lia.
Qed.

(** ** Fuel *)

Lemma allocate_at_loop_fuel_mono T fuel : forall fuel' n ss lvl idx ar r,
  allocate_at_loop T fuel n ss lvl idx ar = Ok r -> (fuel <= fuel')%nat ->
  allocate_at_loop T fuel' n ss lvl idx ar = Ok r.
Proof.
  induction fuel as [|fuel IH]; intros fuel' n ss lvl idx ar r H Hle;
    [discriminate|].
  destruct fuel' as [|fuel']; [lia|]. simpl in H |- *.
  destruct (ss / branching_factor T =? 0); [discriminate|].
  destruct n as [ub ab bits|ub [abz|] branches]; [exact H| |discriminate].
  destruct (_ <? _); [|discriminate].
  destruct (negb _); simpl in H |- *.
  all: destruct (_ !! _) as [[child|]|]; try discriminate.
  all: destruct (allocate_at_loop T fuel child _ _ _ _) as [r'| |] eqn:E;
    try discriminate.
  all: rewrite (IH fuel' _ _ _ _ _ _ E) by lia; exact H.
Qed.

(** An index at or past the capacity leaves the root through a branch it
    does not have. *)
Lemma allocate_at_loop_out_of_range T k fuel n lvl idx ar r :
  wf_node T k n -> span T (S k) <= idx ->
  allocate_at_loop T fuel n (span T (S k)) lvl idx ar <> Ok r.
Proof.
  intros Hwf Hidx. destruct fuel as [|fuel]; [discriminate|].
  simpl. rewrite span_div. pose proof (span_pos T k) as Hp.
  destruct (Z.eqb_spec (span T k) 0) as [|_]; [lia|].
  assert (branching_factor T <= idx / span T k) as Hb.
  { apply Z.div_le_lower_bound; [lia|]. rewrite span_S in Hidx. lia. }
  destruct n as [ub ab bits|ub ab branches].
  - apply wf_node_leaf in Hwf. destruct Hwf as (_ & _ & Hlen & _).
    rewrite lookup_ge_None_2 by lia. discriminate.
  - apply wf_node_inner in Hwf.
    destruct Hwf as (? & abz & _ & -> & _).
    destruct (Z.ltb_spec (idx / span T k) (branching_factor T)); [lia|].
    discriminate.
Qed.

(** ** Counting *)

Lemma distinct_indices_length (l : list Z) n :
  0 <= n -> NoDup l -> (forall j, j ∈ l -> 0 <= j < n) ->
  Z.of_nat (length l) <= n.
Proof.
  intros Hn Hnd Hl.
  assert (l ⊆+ seqZ 0 n) as Hsub.
  { apply NoDup_submseteq; [assumption|].
    intros j Hj. apply elem_of_seqZ. specialize (Hl j Hj). lia. }
  apply submseteq_length in Hsub. rewrite length_seqZ in Hsub. lia.
Qed.

Lemma sum_list_with_insert {A} (f : A -> nat) (l : list A) i x y :
  l !! i = Some x ->
  (sum_list_with f (<[i:=y]> l) + f x = sum_list_with f l + f y)%nat.
Proof.
  revert i. induction l as [|a l IH]; intros [|i] H; simpl in *;
    try discriminate.
  - injection H as ->. lia.
  - specialize (IH i H). lia.
Qed.

Lemma new_branch_count T lvl :
  node_count (new_branch T lvl) = 1%nat /\
  forall d, nodes_at_depth (S d) (new_branch T lvl) = 0%nat.
Proof.
  unfold new_branch, init_leaf. destruct (lvl =? 0); simpl.
  - auto.
  - rewrite !sum_list_with_no_branch. split; [reflexivity|].
    intros d. apply sum_list_with_no_branch.
Qed.

Lemma allocate_at_loop_count T k : forall n idx fuel ar n' ar',
  wf_node T k n -> 0 <= idx < span T (S k) -> Z.of_nat k < 2 ^ 64 ->
  allocate_at_loop T fuel n (span T (S k)) (cast_u64 (Z.of_nat k - 1)) idx ar =
    Ok (n', ar') ->
  (node_count n' <= node_count n + k)%nat /\
  nodes_at_depth 0 n' = nodes_at_depth 0 n /\
  forall d, (nodes_at_depth (S d) n' <= nodes_at_depth (S d) n + 1)%nat.
Proof.
  assert (forall k ub ab bits idx lvl fuel ar n' ar',
            wf_node T k (leaf_node ub ab bits) -> 0 <= idx < span T (S k) ->
            allocate_at_loop T fuel (leaf_node ub ab bits) (span T (S k)) lvl
              idx ar = Ok (n', ar') ->
            (node_count n' <= node_count (leaf_node ub ab bits) + k)%nat /\
            nodes_at_depth 0 n' = 1%nat /\
            forall d, (nodes_at_depth (S d) n' <= 0 + 1)%nat) as Hleaf.
  { clear k. intros k ub ab bits idx lvl [|fuel] ar n' ar' Hwf Hidx H;
      [discriminate|].
    destruct (wf_leaf_word _ _ _ _ _ _ Hwf Hidx) as (w & Hw & Hword & Hm).
    rewrite (allocate_at_loop_leaf _ _ _ _ _ _ _ _ _ w) in H by assumption.
    injection H as <- _. simpl. repeat split; lia. }
  induction k as [|k IH]; intros n idx fuel ar n' ar' Hwf Hidx Hk H;
    destruct n as [ub ab bits|ub ab branches].
  - eapply Hleaf; eassumption.
  - destruct Hwf.
  - eapply Hleaf; eassumption.
  - destruct (wf_node_inner _ _ _ _ _ Hwf)
      as (k' & abz & [= <-] & -> & _ & _ & Hlen & _).
    destruct (bucket_range T _ idx Hidx) as [Hb Hm].
    pose proof (wf_inner_branch _ _ _ _ _ _ Hwf Hb) as Hbr.
    destruct fuel as [|fuel]; [discriminate|].
    rewrite allocate_at_loop_inner, level_pred in H by assumption.
    cbv zeta in H.
    set (b := idx / span T (S k)) in *.
    set (idx' := idx mod span T (S k)) in *.
    assert (exists child old,
              wf_node T k child /\
              (if Z.testbit abz b then branches !! Z.to_nat b
               else (<[Z.to_nat b := Some (new_branch T (Z.of_nat k))]> branches)
                      !! Z.to_nat b) = Some (Some child) /\
              branches !! Z.to_nat b = Some old /\
              (node_count child <=
                 match old with Some c => node_count c | None => 0 end + 1)%nat /\
              (forall d,
                 (nodes_at_depth d child + match d with O => 0 | _ => 1 end <=
                  match old with Some c => nodes_at_depth d c | None => 0 end
                  + 1)%nat))
      as (child & old & Hchild & Hlook & Hold & Hcount & Hdepth).
    { destruct (Z.testbit abz b) eqn:E.
      - destruct Hbr as (child & Hc & Hcwf). exists child, (Some child).
        repeat split; try assumption; try lia.
        intros [|d]; simpl; [lia|].
        destruct child; lia.
      - pose proof (new_branch_count T (Z.of_nat k)) as [Hn Hd].
        exists (new_branch T (Z.of_nat k)), None.
        repeat split; try assumption.
        + apply new_branch_wf.
        + apply list_lookup_insert_eq; lia.
        + lia.
        + intros [|d]; [simpl; lia|]. rewrite Hd. lia. }
    rewrite Hlook in H.
    destruct (allocate_at_loop T fuel child _ _ _ _) as [[child' a]| |] eqn:E;
      try discriminate.
    simpl in H. injection H as <- _.
    destruct (IH child idx' fuel ar child' a Hchild Hm ltac:(lia) E)
      as (Hc' & Hd0 & HdS).
    simpl. split; [|split; [reflexivity|]].
    + pose proof (sum_list_with_insert
                    (fun b0 : option node_t =>
                       match b0 with Some c => node_count c | None => 0%nat end)
                    branches (Z.to_nat b) old (Some child') Hold) as Hsum.
      simpl in Hsum. lia.
    + intros d.
      pose proof (sum_list_with_insert
                    (fun b0 : option node_t =>
                       match b0 with
                       | Some c => nodes_at_depth d c
                       | None => 0%nat
                       end)
                    branches (Z.to_nat b) old (Some child') Hold) as Hsum.
      simpl in Hsum. specialize (Hdepth d).
      destruct d as [|d]; [rewrite Hd0 in Hsum|specialize (HdS d)]; lia.
Qed.

(** ** [allocate_at] on a tree *)

Lemma cast_T_is_T T z : is_T T (cast_T T z).
Proof.
  unfold is_T, cast_T. apply Z.mod_pos_bound.
  apply Z.pow_pos_nonneg; destruct (bits_per_word_cases T); lia.
Qed.

(** What a returning call did: it grew [t] to [t1], then walked down. *)
Lemma allocate_at_inv T fuel t idx t' :
  shape_inv T t -> is_u64 idx -> allocate_at T fuel t idx = Ok t' ->
  exists t1 k,
    shape_inv T t1 /\
    allocated_resources t1 = allocated_resources t /\
    levels t <= levels t1 /\
    current_max_size t <= current_max_size t1 /\
    (forall j, 0 <= j -> tree_allocated T t1 j = tree_allocated T t j) /\
    node_count (root t1) =
      (node_count (root t) + Z.to_nat (levels t1 - levels t))%nat /\
    (forall d, nodes_at_depth (Z.to_nat (levels t1 - levels t) + d) (root t1) =
               nodes_at_depth d (root t)) /\
    (forall d, (d < Z.to_nat (levels t1 - levels t))%nat ->
               nodes_at_depth d (root t1) = 1%nat) /\
    levels t1 = Z.of_nat k /\
    current_max_size t1 = span T (S (S k)) /\
    wf_node T (S k) (root t1) /\
    idx < current_max_size t1 /\
    allocate_at_loop T fuel (root t1) (span T (S (S k)))
      (cast_u64 (Z.of_nat (S k) - 1)) idx (allocated_resources t1) =
      Ok (root t', allocated_resources t') /\
    levels t' = levels t1 /\
    current_max_size t' = current_max_size t1.
Proof.
  intros Hshape Hidx H. unfold allocate_at in H.
  assert (exists t1,
            (if current_max_size t <=? idx
             then move_max_size T fuel t (cast_T T idx) else Ok t) = Ok t1 /\
            shape_inv T t1 /\
            allocated_resources t1 = allocated_resources t /\
            levels t <= levels t1 /\
            current_max_size t <= current_max_size t1 /\
            (forall j, 0 <= j -> tree_allocated T t1 j = tree_allocated T t j) /\
            node_count (root t1) =
              (node_count (root t) + Z.to_nat (levels t1 - levels t))%nat /\
            (forall d,
               nodes_at_depth (Z.to_nat (levels t1 - levels t) + d) (root t1) =
               nodes_at_depth d (root t)) /\
            (forall d, (d < Z.to_nat (levels t1 - levels t))%nat ->
                       nodes_at_depth d (root t1) = 1%nat))
    as (t1 & Hgrow & Hshape1 & Ha & Hl & Hc & Hal & Hn & Hd & Hr).
  { destruct (current_max_size t <=? idx).
    - destruct (move_max_size T fuel t (cast_T T idx)) as [t1| |] eqn:E;
        try discriminate.
      exists t1. split; [reflexivity|].
      destruct (move_max_size_spec T fuel t _ t1 Hshape (cast_T_is_T T idx) E)
        as (? & ? & ? & ? & ? & ? & ? & ? & ?).
      repeat split; assumption.
    - exists t. rewrite Z.sub_diag. simpl.
      repeat split; auto; lia. }
  rewrite Hgrow in H. simpl in H.
  destruct Hshape1 as (k & Hl1 & Hc1 & Hcap1 & Hwf1 & Hub1).
  assert (Z.of_nat (S k) < 2 ^ 64) as Hk.
  { assert (k <= 8)%nat
      by (apply (span_limit_levels T); rewrite <- Hc1; exact Hcap1).
    lia. }
  replace (k + 2)%nat with (S (S k)) in * by lia.
  destruct (allocate_at_loop T fuel (root t1) _ _ _ _) as [[r a]| |] eqn:E;
    try discriminate.
  simpl in H. injection H as <-. simpl.
  exists t1, k. rewrite level_pred by assumption.
  rewrite <- Hl1, <- Hc1.
  assert (idx < current_max_size t1) as Hlt.
  { destruct (Z.lt_ge_cases idx (current_max_size t1)) as [|Hge];
      [assumption|].
    exfalso. rewrite Hc1 in E, Hge.
    exact (allocate_at_loop_out_of_range _ _ _ _ _ _ _ _ Hwf1 Hge E). }
  repeat split; try assumption; try reflexivity.
  exists k. replace (k + 2)%nat with (S (S k)) by lia. auto.
Qed.

Lemma count_inv_bound T t :
  shape_inv T t -> count_inv T t ->
  0 <= allocated_resources t <= current_max_size t.
Proof.
  intros (k & _ & Hc & _) (l & Hnd & -> & Hl). split; [lia|].
  apply distinct_indices_length; [|assumption|].
  - rewrite Hc. pose proof (span_pos T (k + 2)). lia.
  - intros j Hj. apply Hl. assumption.
Qed.

Lemma allocate_at_spec T fuel t idx t' :
  tree_inv T t -> is_u64 idx -> allocate_at T fuel t idx = Ok t' ->
  tree_inv T t' /\
  tree_allocated T t' idx = true /\
  (forall j, 0 <= j -> j <> idx ->
     tree_allocated T t' j = tree_allocated T t j) /\
  allocated_resources t' =
    allocated_resources t + (if tree_allocated T t idx then 0 else 1) /\
  levels t <= levels t' /\
  current_max_size t <= current_max_size t' /\
  idx < current_max_size t'.
Proof.
  intros [Hshape Hcount] Hidx H.
  pose proof (count_inv_bound T t Hshape Hcount) as Hbound.
  destruct (allocate_at_inv T fuel t idx t' Hshape Hidx H)
    as (t1 & k & Hshape1 & Ha & Hl & Hc & Hal & _ & _ & _ & Hl1 & Hc1 & Hwf1
        & Hlt & Hloop & Hl' & Hc').
  assert (0 <= idx) as Hidx0 by apply Hidx.
  assert (0 <= idx < span T (S (S k))) as Hrange by lia.
  assert (Z.of_nat (S k) < 2 ^ 64) as Hk.
  { pose proof (shape_inv_levels T t1 Hshape1). lia. }
  destruct (allocate_at_loop_spec T (S k) (root t1) idx Hwf1 Hrange Hk)
    as (n' & Hspec & Hwf' & Hub' & Halloc & Hframe).
  apply (allocate_at_loop_fuel_mono T fuel (S (S k) + fuel)) in Hloop;
    [|lia].
  rewrite Hspec in Hloop by lia. injection Hloop as Hroot Har.
  assert (shape_inv T t') as Hshape'.
  { destruct Hshape1 as (k1 & Hk1 & Hck1 & Hcap1 & _ & Hub1).
    exists k. rewrite Hl', Hc', <- Hroot.
    replace (k + 2)%nat with (S (S k)) by lia.
    split; [assumption|]. split; [assumption|]. split; [assumption|].
    split; [assumption|]. congruence. }
  assert (forall j, 0 <= j ->
            tree_allocated T t' j =
            if current_max_size t1 <=? j then false
            else allocated_in T (S k) n' j) as Heq'.
  { intros j Hj. rewrite (tree_allocated_eq T t' k), Hc', <- Hroot; try lia.
    - reflexivity.
    - rewrite Hc'. replace (k + 2)%nat with (S (S k)) by lia. assumption.
    - rewrite <- Hroot. assumption. }
  assert (forall j, 0 <= j ->
            tree_allocated T t j =
            if current_max_size t1 <=? j then false
            else allocated_in T (S k) (root t1) j) as Heq.
  { intros j Hj. rewrite <- Hal by assumption.
    apply tree_allocated_eq; try assumption.
    rewrite Hc1. replace (k + 2)%nat with (S (S k)) by lia. reflexivity. }
  assert (tree_allocated T t' idx = true) as Hidx'.
  { rewrite Heq' by assumption.
    destruct (Z.leb_spec (current_max_size t1) idx); [lia|assumption]. }
  assert (forall j, 0 <= j -> j <> idx ->
            tree_allocated T t' j = tree_allocated T t j) as Hframe'.
  { intros j Hj Hne. rewrite Heq', Heq by assumption.
    destruct (Z.leb_spec (current_max_size t1) j); [reflexivity|].
    apply Hframe; lia. }
  assert (allocated_resources t' =
          allocated_resources t + (if tree_allocated T t idx then 0 else 1))
    as Har'.
  { rewrite <- Har, Ha, (Heq idx) by assumption.
    destruct (Z.leb_spec (current_max_size t1) idx); [lia|].
    destruct (allocated_in T (S k) (root t1) idx); [lia|].
    unfold cast_u64. rewrite Z.mod_small; [reflexivity|].
    destruct Hshape as (? & _ & _ & Hcap & _).
    assert (capacity_limit T <= 2 ^ 60) by (destruct T; simpl; lia). lia. }
  repeat split; try assumption; try lia.
  destruct Hcount as (l & Hnd & Hlen & Hl0).
  destruct (tree_allocated T t idx) eqn:Eidx.
  - exists l. split; [assumption|]. split; [lia|].
    intros j Hj. destruct (Hl0 j Hj) as [Hj0 Hja]. split; [lia|].
    destruct (Z.eq_dec j idx) as [->|Hne]; [assumption|].
    rewrite Hframe' by lia. assumption.
  - exists (idx :: l). split; [|split].
    + apply NoDup_cons. split; [|assumption].
      intros Hin. destruct (Hl0 idx Hin) as [_ Hja]. congruence.
    + simpl length. lia.
    + intros j Hj. apply elem_of_cons in Hj as [->|Hj].
      * split; [lia|assumption].
      * destruct (Hl0 j Hj) as [Hj0 Hja]. split; [lia|].
        destruct (Z.eq_dec j idx) as [->|Hne]; [assumption|].
        rewrite Hframe' by lia. assumption.
Qed.

(** ** Reachable trees *)

Lemma tree_new_inv T : tree_inv T (tree_new T).
Proof.
  split.
  - exists 0%nat. simpl. split; [reflexivity|]. split.
    { destruct T; reflexivity. }
    split; [destruct T; vm_compute; discriminate|].
    split; [|reflexivity]. apply (init_leaf_wf T 1). lia.
  - exists []. split; [constructor|]. split; [reflexivity|].
    intros j Hj. inversion Hj.
Qed.

Lemma step_inv T t t' : tree_inv T t -> step T t t' -> tree_inv T t'.
Proof.
  intros Hinv Hstep. destruct Hstep as [t fuel idx t' Hidx H| | |];
    try assumption.
  apply (allocate_at_spec T fuel t idx t' Hinv Hidx H).
Qed.

Lemma reachable_inv T t : reachable T t -> tree_inv T t.
Proof.
  induction 1 as [|t t' _ IH Hstep]; [apply tree_new_inv|].
  eapply step_inv; eassumption.
Qed.

Lemma enough_fuel_16 T t fuel :
  shape_inv T t -> (16 <= fuel)%nat -> enough_fuel t fuel.
Proof.
  intros Hshape Hfuel. pose proof (shape_inv_levels T t Hshape).
  unfold enough_fuel. lia.
Qed.

(** ** [allocate_at] returns *)

Lemma allocate_at_total T t idx :
  tree_inv T t -> 0 <= idx < index_limit T ->
  exists t', forall fuel, (16 <= fuel)%nat -> allocate_at T fuel t idx = Ok t'.
Proof.
  intros [Hshape Hcount] Hidx.
  assert (cast_T T idx = idx) as Hcast.
  { unfold cast_T. apply Z.mod_small. destruct T; simpl in *; lia. }
  assert (is_T T idx) as HidxT.
  { rewrite <- Hcast. apply cast_T_is_T. }
  assert (exists t1,
            shape_inv T t1 /\ idx < current_max_size t1 /\
            forall fuel, (16 <= fuel)%nat ->
              (if current_max_size t <=? idx
               then move_max_size T fuel t (cast_T T idx) else Ok t) = Ok t1)
    as (t1 & Hshape1 & Hlt & Hgrow).
  { destruct (Z.leb_spec (current_max_size t) idx) as [Hle|Hlt].
    - destruct (move_max_size_total T t idx Hshape Hidx) as (t1 & Ht1).
      exists t1.
      destruct (move_max_size_spec T 8 t idx t1 Hshape HidxT (Ht1 8%nat ltac:(lia)))
        as (? & ? & _).
      split; [assumption|]. split; [assumption|].
      intros fuel Hfuel. rewrite Hcast. apply Ht1. lia.
    - exists t. auto. }
  pose proof (shape_inv_levels T t1 Hshape1) as Hlev.
  destruct Hshape1 as (k & Hl1 & Hc1 & Hcap1 & Hwf1 & Hub1).
  replace (k + 2)%nat with (S (S k)) in * by lia.
  assert (0 <= idx < span T (S (S k))) as Hrange by lia.
  assert (Z.of_nat (S k) < 2 ^ 64) as Hk by lia.
  destruct (allocate_at_loop_spec T (S k) (root t1) idx Hwf1 Hrange Hk)
    as (n' & Hspec & _).
  rewrite level_pred in Hspec by assumption.
  eexists. intros fuel Hfuel. unfold allocate_at.
  rewrite Hgrow by assumption. simpl.
  rewrite Hc1, Hl1, Hspec by lia. simpl. reflexivity.
Qed.

(** ** A second [allocate_at] *)


(** ** The size of the tree after [allocate_at] *)

Lemma allocate_at_count T fuel t idx t' :
  tree_inv T t -> is_u64 idx -> allocate_at T fuel t idx = Ok t' ->
  let wraps := Z.to_nat (levels t' - levels t) in
  (node_count (root t') <=
     node_count (root t) + wraps + Z.to_nat (levels t' + 1))%nat /\
  (forall d,
     (nodes_at_depth d (root t') <=
        (if (d <? wraps)%nat then 1
         else nodes_at_depth (d - wraps) (root t)) + 1)%nat) /\
  0 <= levels t' - levels t <= 8 /\ levels t' <= 8.
Proof.
  intros [Hshape Hcount] Hidx H.
  destruct (allocate_at_inv T fuel t idx t' Hshape Hidx H)
    as (t1 & k & Hshape1 & Ha & Hl & Hc & Hal & Hn & Hd & Hr & Hl1 & Hc1 & Hwf1
        & Hlt & Hloop & Hl' & Hc').
  pose proof (shape_inv_levels T t Hshape) as Hlev.
  pose proof (shape_inv_levels T t1 Hshape1) as Hlev1.
  assert (0 <= idx < span T (S (S k))) as Hrange by (destruct Hidx; lia).
  destruct (allocate_at_loop_count T (S k) _ _ _ _ _ _ Hwf1 Hrange ltac:(lia)
              Hloop) as (Hcnt & Hd0 & HdS).
  rewrite Hl'. cbv zeta. split; [lia|]. split; [|lia].
  intros d. set (wraps := Z.to_nat (levels t1 - levels t)) in *.
  destruct (Nat.ltb_spec d wraps) as [Hdw|Hdw].
  - specialize (Hr d Hdw). destruct d as [|d]; [lia|].
    specialize (HdS d). lia.
  - specialize (Hd (d - wraps)%nat).
    replace (wraps + (d - wraps))%nat with d in Hd by lia.
    destruct d as [|d]; [lia|]. specialize (HdS d). lia.
Qed.

(** ** Facts about the example trees *)

Lemma is_u64_5 : is_u64 5.
Proof. unfold is_u64. lia. Qed.

Lemma is_u64_5000 : is_u64 5000.
Proof. unfold is_u64. lia. Qed.

Lemma allocate_at_5 : allocate_at U64 2 (tree_new U64) 5 = Ok tree_with_5.
Proof. vm_compute. reflexivity. Qed.

Lemma allocate_at_5000 :
  allocate_at U64 3 (tree_new U64) 5000 = Ok tree_with_5000.
Proof. vm_compute. reflexivity. Qed.

Lemma reachable_tree_with_5 : reachable U64 tree_with_5.
Proof.
  apply (reachable_step U64 (tree_new U64)); [apply reachable_new|].
  apply (step_allocate_at U64 _ 2 5); [apply is_u64_5|apply allocate_at_5].
Qed.

Lemma reachable_tree_with_5000 : reachable U64 tree_with_5000.
Proof.
  apply (reachable_step U64 (tree_new U64)); [apply reachable_new|].
  apply (step_allocate_at U64 _ 3 5000);
    [apply is_u64_5000|apply allocate_at_5000].
Qed.

Lemma reachable_allocate_all T fuel l : forall t t',
  reachable T t -> Forall is_u64 l -> allocate_all T fuel t l = Ok t' ->
  reachable T t'.
Proof.
  induction l as [|idx l IH]; intros t t' Hr Hl H; simpl in H.
  - injection H as <-. assumption.
  - destruct (allocate_at T fuel t idx) as [t1| |] eqn:E; try discriminate.
    simpl in H. apply Forall_cons in Hl as [Hidx Hl].
    apply (IH t1 t'); [|assumption|assumption].
    apply (reachable_step T t); [assumption|].
    apply (step_allocate_at T t fuel idx); assumption.
Qed.

Lemma reachable_tree_with_0_to_63 : reachable U64 tree_with_0_to_63.
Proof.
  apply (reachable_allocate_all U64 2 (seqZ 0 64) (tree_new U64));
    [apply reachable_new| |vm_compute; reflexivity].
  apply Forall_forall. intros j Hj. apply elem_of_seqZ in Hj.
  unfold is_u64. lia.
Qed.

(** A branch that [allocate_at] creates below a root of one level is an inner
    node, with its leaf one level further down: [current_level] is tested
    before it is decremented.  The first leaf stays at depth 1. *)
Lemma fresh_branch_of_tree_with_5000 :
  levels tree_with_5000 = 1 /\
  nodes_at_depth 1 (root tree_with_5000) = 2%nat /\
  nodes_at_depth 2 (root tree_with_5000) = 1%nat /\
  node_count (root tree_with_5000) = 4%nat.
Proof. repeat split; vm_compute; reflexivity. Qed.

(** ** Growth never ends past the limit *)

(** C5. On a new tree of 64-bit words [allocate_at(2^60)] does not return,
    so [is_allocated(2^60)] never comes to answer true after it: the
    capacity that would cover [2^60] is [2^66], the multiplication wraps to
    0 and the [while] of [move_max_size] runs on. *)
Theorem allocate_at_never_returns_at_2_60 :
  forall fuel t', allocate_at U64 fuel (tree_new U64) (2 ^ 60) <> Ok t'.
Proof.
  intros fuel t'. unfold allocate_at.
  change (current_max_size (tree_new U64) <=? 2 ^ 60) with true. cbv iota.
  change (cast_T U64 (2 ^ 60)) with (2 ^ 60).
  destruct (move_max_size U64 fuel (tree_new U64) (2 ^ 60)) as [t1| |] eqn:E;
    simpl; try discriminate.
  exfalso.
  assert (is_T U64 (2 ^ 60)) as Hidx by (unfold is_T; simpl; lia).
  destruct (move_max_size_spec U64 fuel _ _ _ (proj1 (tree_new_inv U64)) Hidx E)
    as ((k & _ & _ & Hcap & _) & Hlt & _).
  simpl in Hcap. lia.
Qed.

Lemma reachable_from_inv T t t' :
  tree_inv T t -> reachable_from T t t' ->
  tree_inv T t' /\ current_max_size t <= current_max_size t'.
Proof.
  intros Hinv. induction 1 as [|t' t'' _ [IH Hle] Hstep]; [split; [assumption|lia]|].
  split; [eapply step_inv; eassumption|].
  destruct Hstep as [t' fuel idx t'' Hidx H| | |]; simpl; try assumption.
  destruct (allocate_at_spec T fuel t' idx t'' IH Hidx H)
    as (_ & _ & _ & _ & _ & Hc & _).
  lia.
Qed.

(** * The claims *)

(** X17. In every reachable tree and for every index [idx], once
    [allocate_at(idx)] has returned, [idx] is below the capacity (the tree
    has grown if it had to) and [is_allocated(idx)] returns true; and for
    every index below [index_limit] the call does return. *)
Theorem allocate_at_then_is_allocated T t idx :
  reachable T t -> is_u64 idx ->
  (forall fuel t',
     allocate_at T fuel t idx = Ok t' ->
     idx < current_max_size t' /\
     forall fuel', enough_fuel t' fuel' ->
       is_allocated T fuel' t' idx = Ok true) /\
  (idx < index_limit T ->
   exists t', forall fuel, (16 <= fuel)%nat ->
     allocate_at T fuel t idx = Ok t').
Proof.
  intros Hr Hidx. apply reachable_inv in Hr. split.
  - intros fuel t' H.
    destruct (allocate_at_spec T fuel t idx t' Hr Hidx H)
      as ([Hshape' _] & Halloc & _ & _ & _ & _ & Hlt).
    split; [assumption|]. intros fuel' Hfuel.
    rewrite (is_allocated_spec T t' idx fuel') by (assumption || apply Hidx).
    rewrite Halloc. reflexivity.
  - intros Hlt. apply allocate_at_total; [assumption|].
    destruct Hidx. lia.
Qed.

Lemma allocate_at_then_is_allocated_witness :
  is_allocated U64 3 tree_with_5000 5000 = Ok true.
Proof.
  destruct (allocate_at_then_is_allocated U64 (tree_new U64) 5000
              (reachable_new U64) is_u64_5000) as [H _].
  destruct (H 3%nat tree_with_5000 allocate_at_5000) as [_ H'].
  apply H'. unfold enough_fuel. simpl. lia.
Defined.




(** C7. A new tree has no level and capacity [B^2]; in every reachable tree
    the capacity is [B^(levels+2)]; and no sequence of calls makes the
    capacity smaller. *)
Theorem capacity_power_of_branching_factor T :
  (levels (tree_new T) = 0 /\
   current_max_size (tree_new T) = branching_factor T ^ 2) /\
  forall t, reachable T t ->
    0 <= levels t /\
    current_max_size t = branching_factor T ^ (levels t + 2) /\
    forall t', reachable_from T t t' ->
      current_max_size t <= current_max_size t'.
Proof.
  split; [split; [reflexivity|destruct T; reflexivity]|].
  intros t Hr. apply reachable_inv in Hr.
  pose proof Hr as [(k & Hl & Hc & _) _].
  split; [lia|]. split.
  - rewrite Hc, Hl. unfold span. f_equal. lia.
  - intros t' Hfrom. apply (reachable_from_inv T t t' Hr Hfrom).
Qed.

Lemma capacity_power_of_branching_factor_witness :
  current_max_size tree_with_5000 = 64 ^ (levels tree_with_5000 + 2) /\
  current_max_size (tree_new U64) <= current_max_size tree_with_5000.
Proof.
  destruct (capacity_power_of_branching_factor U64) as [_ H].
  split.
  - apply (H tree_with_5000 reachable_tree_with_5000).
  - apply (H (tree_new U64) (reachable_new U64)).
    apply (reachable_from_step U64 _ (tree_new U64));
      [apply reachable_from_refl|].
    apply (step_allocate_at U64 _ 3 5000);
      [apply is_u64_5000|apply allocate_at_5000].
Defined.

(** X16. A call of [allocate_at(idx)] that returns adds at most one node per
    depth on its way down and one root per wrap of the growth: whatever
    [idx], at most 17 nodes. *)
Theorem allocate_at_sparse T t idx fuel t' :
  reachable T t -> is_u64 idx -> allocate_at T fuel t idx = Ok t' ->
  let wraps := Z.to_nat (levels t' - levels t) in
  (node_count (root t') <=
     node_count (root t) + wraps + Z.to_nat (levels t' + 1))%nat /\
  (forall d,
     (nodes_at_depth d (root t') <=
        (if (d <? wraps)%nat then 1
         else nodes_at_depth (d - wraps) (root t)) + 1)%nat) /\
  (node_count (root t') <= node_count (root t) + 17)%nat.
Proof.
  intros Hr Hidx H. apply reachable_inv in Hr.
  destruct (allocate_at_count T fuel t idx t' Hr Hidx H)
    as (Hcount & Hdepth & Hw & Hl).
  cbv zeta in *. split; [assumption|]. split; [assumption|]. lia.
Qed.

Lemma allocate_at_sparse_witness :
  (node_count (root tree_with_5000) <= 1 + 17)%nat.
Proof.
  apply (allocate_at_sparse U64 (tree_new U64) 5000 3 tree_with_5000
           (reachable_new U64) is_u64_5000 allocate_at_5000).
Defined.

(** C10. A call of [allocate_at(idx)] that returns leaves the answer of
    [is_allocated(j)] as it was for every [j] other than [idx]. *)
Theorem allocate_at_frame T t idx fuel t' j fuel' :
  reachable T t -> is_u64 idx -> allocate_at T fuel t idx = Ok t' ->
  is_u64 j -> j <> idx -> enough_fuel t' fuel' ->
  exists b,
    is_allocated T fuel' t j = Ok b /\ is_allocated T fuel' t' j = Ok b.
Proof.
  intros Hr Hidx H Hj Hne Hfuel. apply reachable_inv in Hr.
  destruct (allocate_at_spec T fuel t idx t' Hr Hidx H)
    as ([Hshape' _] & _ & Hframe & _ & Hl & _).
  destruct Hr as [Hshape _]. destruct Hj as [Hj0 Hj].
  exists (tree_allocated T t j). split.
  - apply is_allocated_spec; [assumption|assumption|].
    unfold enough_fuel in *. lia.
  - rewrite <- Hframe by assumption.
    apply is_allocated_spec; assumption.
Qed.

Lemma allocate_at_frame_witness :
  exists b,
    is_allocated U64 3 (tree_new U64) 7 = Ok b /\
    is_allocated U64 3 tree_with_5000 7 = Ok b.
Proof.
  apply (allocate_at_frame U64 (tree_new U64) 5000 3 tree_with_5000 7 3
           (reachable_new U64) is_u64_5000 allocate_at_5000).
  - unfold is_u64. lia.
  - lia.
  - unfold enough_fuel. simpl. lia.
Defined.

(** ** The path of the specification *)

Lemma root_to_leaf_path_spec T k : forall n idx,
  wf_node T k n -> 0 <= idx < span T (S k) ->
  exists e,
    root_to_leaf_path T n (span T (S k)) idx e /\
    allocated_in T k n idx = spec_answer e.
Proof.
  induction k as [|k IH]; intros n idx Hwf Hidx;
    destruct n as [ub ab bits|ub ab branches].
  1,3: destruct (wf_leaf_word _ _ _ _ _ _ Hwf Hidx) as (w & Hw & _ & Hm);
    eexists (leaf_bit _); split;
    [apply (path_leaf T _ _ _ _ _ w); rewrite span_div; exact Hw
    |rewrite span_div, (allocated_in_leaf _ _ _ _ _ _ w) by assumption;
     reflexivity].
  - destruct Hwf.
  - destruct (wf_node_inner _ _ _ _ _ Hwf)
      as (k' & abz & [= <-] & -> & _ & _ & Hlen & _).
    destruct (bucket_range T _ idx Hidx) as [Hb Hm].
    pose proof (wf_inner_branch _ _ _ _ _ _ Hwf Hb) as Hbr.
    rewrite allocated_in_inner by assumption.
    destruct (Z.testbit abz (idx / span T (S k))) eqn:E.
    + destruct Hbr as (child & Hc & Hcwf).
      destruct (IH child _ Hcwf Hm) as (e & He & Ha).
      exists e. rewrite Hc. split; [|assumption].
      apply (path_branch T _ _ _ _ _ child); rewrite span_div; assumption.
    + exists unmaterialized. split; [|reflexivity].
      apply path_unmaterialized. rewrite span_div. assumption.
Qed.

(** C8. In every reachable tree [is_allocated(idx)] returns: false, at once,
    when [idx] is at or past the capacity; otherwise what the specification
    says of the root-to-leaf path of [idx], false where the path meets an
    unmaterialized branch and the negation of the leaf bit where it reaches
    a leaf.  The member is [const]: it returns nothing but the answer. *)
Theorem is_allocated_total T t idx :
  reachable T t -> is_u64 idx ->
  (current_max_size t <= idx ->
   forall fuel, is_allocated T fuel t idx = Ok false) /\
  (idx < current_max_size t ->
   exists e,
     root_to_leaf_path T (root t) (current_max_size t) idx e /\
     forall fuel, enough_fuel t fuel ->
       is_allocated T fuel t idx = Ok (spec_answer e)).
Proof.
  intros Hr [Hidx0 _]. apply reachable_inv in Hr as [Hshape _]. split.
  - intros Hge fuel. unfold is_allocated.
    destruct (Z.leb_spec (current_max_size t) idx); [reflexivity|lia].
  - intros Hlt. pose proof Hshape as (k & Hl & Hc & _ & Hwf & _).
    pose proof Hc as Hc0. replace (k + 2)%nat with (S (S k)) in Hc by lia.
    assert (0 <= idx < span T (S (S k))) as Hrange by lia.
    destruct (root_to_leaf_path_spec T (S k) (root t) idx Hwf Hrange)
      as (e & He & Ha).
    exists e. rewrite Hc. split; [assumption|].
    intros fuel Hfuel. rewrite (is_allocated_spec T t idx fuel) by assumption.
    rewrite (tree_allocated_eq T t k), Hc by assumption.
    destruct (Z.leb_spec (span T (S (S k))) idx); [lia|].
    rewrite Ha. reflexivity.
Qed.

Lemma is_allocated_total_witness :
  is_allocated U64 0 tree_with_5000 (2 ^ 40) = Ok false /\
  exists e,
    root_to_leaf_path U64 (root tree_with_5000)
      (current_max_size tree_with_5000) 5000 e /\
    is_allocated U64 3 tree_with_5000 5000 = Ok (spec_answer e).
Proof.
  split.
  - destruct (is_allocated_total U64 tree_with_5000 (2 ^ 40)
                reachable_tree_with_5000) as [H _].
    + unfold is_u64. lia.
    + apply H. simpl. lia.
  - destruct (is_allocated_total U64 tree_with_5000 5000
                reachable_tree_with_5000 is_u64_5000) as [_ H].
    destruct H as (e & He & H); [simpl; lia|].
    exists e. split; [exact He|].
    apply H. unfold enough_fuel. simpl. lia.
Defined.

(** ** The free-summary words *)

(** C1. The free-summary invariant does not hold in every reachable tree.
    After [allocate_at(0)], ..., [allocate_at(63)] on a new tree of 64-bit
    words every index of branch 0 of the leaf is allocated and bit 0 of its
    [unset_branches] is still 1: [allocate_at] writes no summary word.  After
    [allocate_at(5000)] on a new tree the inner node that the call created
    has a summary word that nothing wrote. *)
Theorem summary_not_exact_after_0_to_63 :
  reachable U64 tree_with_0_to_63 /\
  unset_branches (root tree_with_0_to_63) = Some (all_ones U64) /\
  (forall idx, 0 <= idx < 64 ->
     is_allocated U64 2 tree_with_0_to_63 idx = Ok true) /\
  ~ summary_exact U64 (S (Z.to_nat (levels tree_with_0_to_63)))
      (root tree_with_0_to_63) /\
  reachable U64 tree_with_5000 /\
  ~ summary_exact U64 (S (Z.to_nat (levels tree_with_5000)))
      (root tree_with_5000).
Proof.
  assert (forallb (fun i => allocated_in U64 1 (root tree_with_0_to_63) i)
            (seqZ 0 64) = true) as Hall by (vm_compute; reflexivity).
  rewrite forallb_forall in Hall.
  assert (forall idx, 0 <= idx < 64 ->
            allocated_in U64 1 (root tree_with_0_to_63) idx = true) as Hall'.
  { intros idx Hidx. apply Hall. apply list_elem_of_In, elem_of_seqZ. lia. }
  split; [apply reachable_tree_with_0_to_63|]. split; [reflexivity|].
  split; [|split; [|split; [apply reachable_tree_with_5000|]]].
  - assert (forallb (fun i => match is_allocated U64 2 tree_with_0_to_63 i with
                               | Ok true => true
                               | _ => false
                               end) (seqZ 0 64) = true) as Hcalls
      by (vm_compute; reflexivity).
    rewrite forallb_forall in Hcalls.
    intros idx Hidx. specialize (Hcalls idx).
    destruct (is_allocated U64 2 tree_with_0_to_63 idx) as [[|]| |];
      try reflexivity;
      (discriminate Hcalls; apply list_elem_of_In, elem_of_seqZ; lia).
  - change (S (Z.to_nat (levels tree_with_0_to_63))) with 1%nat.
    intros [(w & Hw & Hbits) _].
    injection Hw as <-.
    destruct (Hbits 0) as [Hfree _]; [simpl; lia|].
    destruct (Hfree eq_refl) as (idx & Hidx & Hfalse).
    change (span U64 1) with 64 in Hidx.
    rewrite Hall' in Hfalse by lia. discriminate.
  - change (S (Z.to_nat (levels tree_with_5000))) with 2%nat.
    intros [_ Hchildren]. simpl in Hchildren.
    destruct (Hchildren 1%nat _ eq_refl) as [(w & Hw & _) _].
    discriminate.
Qed.

(** ** The stubs *)

(** C2.  [allocate()] returns 0 and leaves the tree as it is: on a new tree
    index 0 is not allocated after the call and the counter is still 0; and
    where 0 is allocated before the call, 0 is what the call returns. *)
Theorem allocate_marks_nothing :
  (forall T t, allocate T t = (t, 0)) /\
  snd (allocate U64 (tree_new U64)) = 0 /\
  is_allocated U64 2 (fst (allocate U64 (tree_new U64)))
    (snd (allocate U64 (tree_new U64))) = Ok false /\
  allocated_resources (fst (allocate U64 (tree_new U64))) = 0 /\
  is_allocated U64 2 tree_with_0_to_63
    (snd (allocate U64 tree_with_0_to_63)) = Ok true.
Proof.
  split; [intros T t; destruct T; reflexivity|].
  split; [reflexivity|]. split; [vm_compute; reflexivity|].
  split; [reflexivity|vm_compute; reflexivity].
Qed.

(** C3.  [deallocate(idx)] leaves the tree as it is: after [allocate_at(5)]
    and [deallocate(5)] on a new tree, [is_allocated(5)] returns true. *)
Theorem deallocate_frees_nothing :
  (forall T t idx, deallocate T t idx = t) /\
  reachable U64 tree_with_5 /\
  is_allocated U64 2 tree_with_5 5 = Ok true /\
  is_allocated U64 2 (deallocate U64 tree_with_5 5) 5 = Ok true.
Proof.
  split; [reflexivity|]. split; [apply reachable_tree_with_5|].
  split; vm_compute; reflexivity.
Qed.

(** ** The summary word of a new root *)







(** * Further properties *)

(** ** The bit operations *)

(** X1. On a word of [T] and bit positions below the width, [set_bit] gives
    a word of [T] on which [test_bit] answers true at the bit set and as
    before at every other bit. *)
Theorem set_bit_then_test_bit T n bit bit' :
  is_word T n -> 0 <= bit < bits_per_word T -> 0 <= bit' < bits_per_word T ->
  is_word T (set_bit T n bit) /\
  test_bit T (set_bit T n bit) bit' = (bit' =? bit) || test_bit T n bit'.
Proof.
  intros Hn Hb Hb'. split; [apply set_bit_word; assumption|].
  rewrite !test_bit_testbit by assumption.
  apply set_bit_testbit; lia.
Qed.

Lemma set_bit_then_test_bit_witness :
  is_word U32 (set_bit U32 5 3) /\
  test_bit U32 (set_bit U32 5 3) 3 = (3 =? 3) || test_bit U32 5 3.
Proof.
  apply (set_bit_then_test_bit U32 5 3 3); unfold is_word; simpl; lia.
Defined.

(** X2. On a word of [T] and bit positions below the width, [clear_bit]
    gives a word of [T] on which [test_bit] answers false at the bit cleared
    and as before at every other bit. *)
Theorem clear_bit_then_test_bit T n bit bit' :
  is_word T n -> 0 <= bit < bits_per_word T -> 0 <= bit' < bits_per_word T ->
  is_word T (clear_bit T n bit) /\
  test_bit T (clear_bit T n bit) bit' = test_bit T n bit' && negb (bit' =? bit).
Proof.
  intros Hn Hb Hb'. split; [apply clear_bit_word; assumption|].
  rewrite !test_bit_testbit by assumption.
  apply clear_bit_testbit; (assumption || lia).
Qed.

Lemma clear_bit_then_test_bit_witness :
  is_word U64 (clear_bit U64 5 2) /\
  test_bit U64 (clear_bit U64 5 2) 0 = test_bit U64 5 0 && negb (0 =? 2).
Proof.
  apply (clear_bit_then_test_bit U64 5 2 0); unfold is_word; simpl; lia.
Defined.

Lemma set_bit_set T w bit :
  is_word T w -> 0 <= bit < bits_per_word T ->
  Z.testbit w bit = true -> set_bit T w bit = w.
Proof.
  intros Hw Hb E. apply Z.bits_inj'. intros i Hi.
  rewrite set_bit_testbit by assumption.
  destruct (Z.eqb_spec i bit) as [->|_]; [rewrite E|]; reflexivity.
Qed.

Lemma set_clear_bit T w bit :
  is_word T w -> 0 <= bit < bits_per_word T ->
  set_bit T (clear_bit T w bit) bit = set_bit T w bit /\
  clear_bit T (set_bit T w bit) bit = clear_bit T w bit.
Proof.
  intros Hw Hb. split; apply Z.bits_inj'; intros i Hi.
  - rewrite !set_bit_testbit, clear_bit_testbit by assumption.
    destruct (Z.eqb_spec i bit); [reflexivity|]. simpl. apply andb_true_r.
  - rewrite !clear_bit_testbit, set_bit_testbit
      by (assumption || apply set_bit_word; assumption).
    destruct (Z.eqb_spec i bit); simpl; [rewrite !andb_false_r|]; reflexivity.
Qed.

(** X3. Round trips on a word of [T]: setting a bit that is clear and
    clearing it again, or clearing a bit that is set and setting it again,
    gives the word back; a second [set_bit] or [clear_bit] of the same bit
    changes nothing. *)
Theorem set_clear_round_trip T n bit :
  is_word T n -> 0 <= bit < bits_per_word T ->
  (test_bit T n bit = false -> clear_bit T (set_bit T n bit) bit = n) /\
  (test_bit T n bit = true -> set_bit T (clear_bit T n bit) bit = n) /\
  set_bit T (set_bit T n bit) bit = set_bit T n bit /\
  clear_bit T (clear_bit T n bit) bit = clear_bit T n bit.
Proof.
  intros Hn Hb. rewrite test_bit_testbit by assumption.
  destruct (set_clear_bit T n bit Hn Hb) as [Hsc Hcs].
  split; [|split; [|split]].
  - intros E. rewrite Hcs. apply clear_bit_clear; assumption.
  - intros E. rewrite Hsc. apply set_bit_set; assumption.
  - apply set_bit_set; [apply set_bit_word; assumption|assumption|].
    rewrite set_bit_testbit, Z.eqb_refl by lia. reflexivity.
  - apply clear_bit_clear; [apply clear_bit_word; assumption|assumption|].
    rewrite clear_bit_testbit, Z.eqb_refl by (assumption || lia).
    apply andb_false_r.
Qed.

Lemma set_clear_round_trip_witness :
  clear_bit U64 (set_bit U64 5 1) 1 = 5.
Proof.
  assert (is_word U64 5) as Hn by (unfold is_word; simpl; lia).
  assert (0 <= 1 < bits_per_word U64) as Hb by (simpl; lia).
  destruct (set_clear_round_trip U64 5 1 Hn Hb) as [H _].
  apply H. reflexivity.
Defined.

(** ** A new tree *)

(** X4. On a tree fresh from the constructor [is_allocated] returns false
    for every index, after one turn of its loop at most, and the counter
    is 0. *)
Theorem tree_new_nothing_allocated T idx fuel :
  is_u64 idx -> (1 <= fuel)%nat ->
  is_allocated T fuel (tree_new T) idx = Ok false /\
  allocated_resources (tree_new T) = 0.
Proof.
  intros [Hidx _] Hfuel. split; [|reflexivity].
  pose proof (tree_new_inv T) as [(k & Hl & Hc & _ & Hwf & _) _].
  assert (k = 0%nat) as -> by (simpl in Hl; lia).
  unfold is_allocated.
  destruct (Z.leb_spec (current_max_size (tree_new T)) idx) as [|Hlt];
    [reflexivity|].
  rewrite Hc in Hlt |- *. simpl root in *. unfold init_leaf in *.
  assert (0 <= idx < span T 2) as Hrange by (simpl in Hlt; lia).
  destruct (wf_leaf_word _ _ _ _ _ _ Hwf Hrange) as (w & Hw & _ & Hm).
  destruct fuel as [|fuel]; [lia|].
  change (0 + 2)%nat with 2%nat.
  rewrite (is_allocated_loop_leaf _ _ _ _ _ _ _ w) by assumption.
  apply lookup_replicate in Hw as [-> _].
  rewrite all_ones_testbit by assumption. reflexivity.
Qed.

Lemma tree_new_nothing_allocated_witness :
  is_allocated U32 1 (tree_new U32) 77 = Ok false /\
  allocated_resources (tree_new U32) = 0.
Proof.
  apply (tree_new_nothing_allocated U32 77 1); [unfold is_u64; lia|lia].
Defined.

(** ** Indices past what the tree can grow to *)

Lemma move_max_size_runs_on fuel : forall t idx,
  2 ^ 60 <= idx < 2 ^ 64 ->
  shape_inv U64 t \/
  (current_max_size t = 0 /\ exists w, unset_branches (root t) = Some w) ->
  move_max_size U64 fuel t idx = OutOfFuel.
Proof.
  induction fuel as [|fuel IH]; intros t idx Hidx Ht;
    rewrite move_max_size_eq.
  all: assert (current_max_size t <= idx) as Hle
    by (destruct Ht as [(k & _ & _ & Hcap & _)|[-> _]];
        [simpl in Hcap|]; lia).
  all: destruct (Z.leb_spec (current_max_size t) idx); [|lia].
  - reflexivity.
  - assert (is_T U64 idx) as HidxT by (unfold is_T; simpl; lia).
    assert (exists w, unset_branches (root t) = Some w) as (w & Hw).
    { destruct Ht as [(k & _ & _ & _ & _ & Hub)|[_ Hub]]; eauto. }
    assert (exists t1, wrap_root U64 t = Ok t1 /\
              current_max_size t1 =
                cast_u64 (current_max_size t * branching_factor U64) /\
              exists w1, unset_branches (root t1) = Some w1)
      as (t1 & Hwrap & Hc1 & Hub1).
    { unfold wrap_root. rewrite Hw. eexists. split; [reflexivity|].
      simpl. eauto. }
    rewrite Hwrap. simpl. apply IH; [assumption|].
    destruct Ht as [Hshape|[Hc _]].
    + destruct (Z.le_gt_cases (current_max_size t * branching_factor U64)
                  (capacity_limit U64)) as [Hfit|Hover].
      * left. destruct (wrap_root_spec U64 t Hshape Hfit) as (t1' & E & ? & _).
        congruence.
      * right. split; [|assumption].
        eapply wrap_root_overflow; eassumption.
    + right. split; [|assumption]. rewrite Hc1, Hc. reflexivity.
Qed.

(** X5. With 64-bit words and an index of [2^60] or more, [allocate_at] does
    not return, whatever the tree a program holds: the capacity that would
    cover the index does not fit 64 bits, the multiplication wraps to 0 and
    the [while] of [move_max_size] runs on, however much fuel it is given. *)
Theorem allocate_at_runs_on_past_2_60 t idx fuel :
  reachable U64 t -> 2 ^ 60 <= idx < 2 ^ 64 ->
  allocate_at U64 fuel t idx = OutOfFuel.
Proof.
  intros Hr Hidx. apply reachable_inv in Hr as [Hshape _].
  pose proof Hshape as (k & _ & _ & Hcap & _). simpl in Hcap.
  unfold allocate_at.
  destruct (Z.leb_spec (current_max_size t) idx); [|lia].
  replace (cast_T U64 idx) with idx
    by (unfold cast_T; simpl; rewrite Z.mod_small; lia).
  rewrite move_max_size_runs_on by auto. reflexivity.
Qed.

Lemma allocate_at_runs_on_past_2_60_witness :
  allocate_at U64 1000 tree_with_5000 (2 ^ 63) = OutOfFuel.
Proof.
  apply (allocate_at_runs_on_past_2_60 tree_with_5000 (2 ^ 63) 1000).
  - apply reachable_tree_with_5000.
  - lia.
Defined.

Lemma allocate_at_loop_out_of_range_undefined T k fuel n lvl idx ar :
  wf_node T k n -> span T (S k) <= idx ->
  allocate_at_loop T (S fuel) n (span T (S k)) lvl idx ar = Undefined.
Proof.
  intros Hwf Hidx. simpl. rewrite span_div. pose proof (span_pos T k) as Hp.
  destruct (Z.eqb_spec (span T k) 0) as [|_]; [lia|].
  assert (branching_factor T <= idx / span T k) as Hb.
  { apply Z.div_le_lower_bound; [lia|]. rewrite span_S in Hidx. lia. }
  destruct n as [ub ab bits|ub ab branches].
  - apply wf_node_leaf in Hwf. destruct Hwf as (_ & _ & Hlen & _).
    rewrite lookup_ge_None_2 by lia. reflexivity.
  - apply wf_node_inner in Hwf.
    destruct Hwf as (? & abz & _ & -> & _).
    destruct (Z.ltb_spec (idx / span T k) (branching_factor T)); [lia|].
    reflexivity.
Qed.

(** X6. With 32-bit words [move_max_size] receives the index cut to 32 bits.
    When the index is at or past the capacity and its low 32 bits are below
    the capacity, the tree does not grow and the descent leaves the root
    through a branch it does not have: the call is undefined. *)
Theorem allocate_at_truncated_index t idx fuel :
  reachable U32 t -> is_u64 idx ->
  current_max_size t <= idx -> cast_T U32 idx < current_max_size t ->
  allocate_at U32 (S fuel) t idx = Undefined.
Proof.
  intros Hr Hidx Hle Hlt. apply reachable_inv in Hr as [Hshape _].
  destruct Hshape as (k & Hl & Hc & _ & Hwf & _).
  unfold allocate_at.
  destruct (Z.leb_spec (current_max_size t) idx); [|lia].
  rewrite move_max_size_eq.
  destruct (Z.leb_spec (current_max_size t) (cast_T U32 idx)); [lia|].
  change (Ok t ≫= ?f) with (f t). cbv beta.
  rewrite Hc. replace (k + 2)%nat with (S (S k)) in * by lia.
  rewrite allocate_at_loop_out_of_range_undefined by (assumption || lia).
  reflexivity.
Qed.

Lemma allocate_at_truncated_index_witness :
  allocate_at U32 1 (tree_new U32) (2 ^ 32 + 7) = Undefined.
Proof.
  apply (allocate_at_truncated_index (tree_new U32) (2 ^ 32 + 7) 0).
  - apply reachable_new.
  - unfold is_u64. lia.
  - vm_compute. discriminate.
  - vm_compute. reflexivity.
Defined.

(** X7. With 32-bit words no call of [allocate_at] with an index of [2^35] or
    more returns: the capacity stays at [2^35] at most, and with the fuel to
    finish growing the call is undefined. *)
Theorem allocate_at_past_2_35 t idx :
  reachable U32 t -> 2 ^ 35 <= idx < 2 ^ 64 ->
  (forall fuel t', allocate_at U32 fuel t idx <> Ok t') /\
  (forall fuel, (16 <= fuel)%nat -> allocate_at U32 fuel t idx = Undefined).
Proof.
  intros Hr Hidx. apply reachable_inv in Hr. split.
  - intros fuel t' H.
    destruct (allocate_at_spec U32 fuel t idx t' Hr ltac:(unfold is_u64; lia) H)
      as ([(k & _ & _ & Hcap & _) _] & _ & _ & _ & _ & _ & Hlt).
    simpl in Hcap. lia.
  - intros fuel Hfuel. destruct Hr as [Hshape _].
    pose proof Hshape as (k & _ & _ & Hcap & _). simpl in Hcap.
    assert (0 <= cast_T U32 idx < index_limit U32) as Hcast.
    { unfold cast_T. simpl. apply Z.mod_pos_bound. lia. }
    destruct (move_max_size_total U32 t _ Hshape Hcast) as (t1 & Ht1).
    destruct (move_max_size_spec U32 fuel t _ t1 Hshape (cast_T_is_T U32 idx)
                (Ht1 fuel ltac:(lia))) as (Hshape1 & _).
    destruct Hshape1 as (k1 & Hl1 & Hc1 & Hcap1 & Hwf1 & _). simpl in Hcap1.
    unfold allocate_at.
    destruct (Z.leb_spec (current_max_size t) idx); [|lia].
    rewrite Ht1 by lia. change (Ok t1 ≫= ?f) with (f t1). cbv beta.
    rewrite Hc1 in *. replace (k1 + 2)%nat with (S (S k1)) in * by lia.
    destruct fuel as [|fuel]; [lia|].
    rewrite allocate_at_loop_out_of_range_undefined by (assumption || lia).
    reflexivity.
Qed.

Lemma allocate_at_past_2_35_witness :
  allocate_at U32 16 (tree_new U32) (2 ^ 35) = Undefined.
Proof.
  destruct (allocate_at_past_2_35 (tree_new U32) (2 ^ 35)) as [_ H].
  - apply reachable_new.
  - lia.
  - apply H. lia.
Defined.

(** ** How far the tree grows *)

Lemma move_max_size_tight T fuel : forall t idx t',
  shape_inv T t -> is_T T idx -> move_max_size T fuel t idx = Ok t' ->
  (idx < current_max_size t -> t' = t) /\
  (current_max_size t <= idx ->
   current_max_size t' <= idx * branching_factor T).
Proof.
  induction fuel as [|fuel IH]; intros t idx t' Hshape Hidx;
    rewrite move_max_size_eq;
    (destruct (Z.leb_spec (current_max_size t) idx) as [Hle|Hlt];
     [|intros [= <-]; split; [reflexivity|lia]]); [discriminate|].
  pose proof (branching_factor_ge T) as HB.
  destruct (Z.le_gt_cases (current_max_size t * branching_factor T)
              (capacity_limit T)) as [Hfit|Hover].
  - destruct (wrap_root_spec T t Hshape Hfit)
      as (t1 & -> & Hshape1 & _ & Hc1 & _).
    simpl. intros Hgrow. split; [lia|]. intros _.
    destruct (IH t1 idx t' Hshape1 Hidx Hgrow) as [Hsame Hmore].
    destruct (Z.lt_ge_cases idx (current_max_size t1)) as [Hlt|Hge].
    + rewrite (Hsame Hlt), Hc1. nia.
    + apply Hmore. assumption.
  - destruct (wrap_root T t) as [t1| |] eqn:Hwrap; simpl; try discriminate.
    intros Hgrow. exfalso.
    eapply (move_max_size_zero T fuel t1 idx t'); [|apply Hidx|exact Hgrow].
    eapply wrap_root_overflow; eassumption.
Qed.

Lemma allocate_at_capacity T t idx fuel t' :
  tree_inv T t -> is_u64 idx -> allocate_at T fuel t idx = Ok t' ->
  (idx < current_max_size t ->
   levels t' = levels t /\ current_max_size t' = current_max_size t) /\
  (current_max_size t <= idx ->
   idx < current_max_size t' <= idx * branching_factor T).
Proof.
  intros Hr Hidx H.
  destruct (allocate_at_spec T fuel t idx t' Hr Hidx H)
    as (_ & _ & _ & _ & _ & _ & Hlt').
  destruct Hr as [Hshape _]. unfold allocate_at in H.
  destruct (Z.leb_spec (current_max_size t) idx) as [Hle|Hlt].
  - destruct (move_max_size T fuel t (cast_T T idx)) as [t1| |] eqn:E;
      try discriminate.
    simpl in H.
    destruct (allocate_at_loop T fuel (root t1) _ _ _ _) as [[r a]| |];
      try discriminate.
    simpl in H. injection H as <-. simpl in *.
    split; [lia|]. intros _. split; [assumption|].
    destruct (move_max_size_tight T fuel t _ t1 Hshape (cast_T_is_T T idx) E)
      as [Hsame Hmore].
    assert (cast_T T idx <= idx) as Hcast.
    { unfold cast_T. apply Z.mod_le; [apply Hidx|].
      apply Z.pow_pos_nonneg; destruct (bits_per_word_cases T); lia. }
    pose proof (branching_factor_ge T) as HB.
    destruct (Z.lt_ge_cases (cast_T T idx) (current_max_size t)) as [Hc|Hc].
    + pose proof (Hsame Hc) as ->. lia.
    + specialize (Hmore Hc). nia.
  - simpl in H.
    destruct (allocate_at_loop T fuel (root t) _ _ _ _) as [[r a]| |];
      try discriminate.
    simpl in H. injection H as <-. simpl.
    split; [auto|lia].
Qed.

(** X8. A call of [allocate_at(idx)] that returns grows the tree no more than
    it has to: below the capacity it leaves levels and capacity as they are,
    and at or past the capacity it stops at the first capacity above [idx],
    which is at most [B] times [idx]. *)
Theorem allocate_at_grows_to_fit T t idx fuel t' :
  reachable T t -> is_u64 idx -> allocate_at T fuel t idx = Ok t' ->
  (idx < current_max_size t ->
   levels t' = levels t /\ current_max_size t' = current_max_size t) /\
  (current_max_size t <= idx ->
   idx < current_max_size t' <= idx * branching_factor T).
Proof.
  intros Hr Hidx H. apply reachable_inv in Hr.
  apply (allocate_at_capacity T t idx fuel t' Hr Hidx H).
Qed.

Lemma allocate_at_grows_to_fit_witness :
  5000 < current_max_size tree_with_5000 <= 5000 * branching_factor U64.
Proof.
  apply (allocate_at_grows_to_fit U64 (tree_new U64) 5000 3 tree_with_5000
           (reachable_new U64) is_u64_5000 allocate_at_5000).
  vm_compute. discriminate.
Defined.

(** X9. Bounds of every tree a program holds: at most 8 levels and capacity
    [2^60] with 64-bit words, at most 5 levels and capacity [2^35] with
    32-bit words; the capacity is at least [B^2] and the counter lies between
    0 and the capacity, so it never wraps around. *)
Theorem reachable_bounds T t :
  reachable T t ->
  0 <= levels t <= match T with U32 => 5 | U64 => 8 end /\
  branching_factor T ^ 2 <= current_max_size t
    <= match T with U32 => 2 ^ 35 | U64 => 2 ^ 60 end /\
  0 <= allocated_resources t <= current_max_size t.
Proof.
  intros Hr. apply reachable_inv in Hr as [Hshape Hcount].
  pose proof (count_inv_bound T t Hshape Hcount) as Hbound.
  destruct Hshape as (k & Hl & Hc & Hcap & _).
  split; [|split; [|assumption]].
  - rewrite Hl. rewrite Hc, capacity_limit_pow2 in Hcap.
    apply span_le_pow2 in Hcap; destruct T; simpl in *; lia.
  - split.
    + rewrite Hc. change (branching_factor T ^ 2) with (span T 2).
      apply span_mono. lia.
    + destruct T; exact Hcap.
Qed.

Lemma reachable_bounds_witness :
  0 <= levels tree_with_5000 <= 8 /\
  branching_factor U64 ^ 2 <= current_max_size tree_with_5000 <= 2 ^ 60 /\
  0 <= allocated_resources tree_with_5000 <= current_max_size tree_with_5000.
Proof.
  apply (reachable_bounds U64 tree_with_5000 reachable_tree_with_5000).
Defined.

(** ** What the counter counts *)

Lemma tree_new_allocated T idx :
  0 <= idx -> tree_allocated T (tree_new T) idx = false.
Proof.
  intros Hidx. pose proof (tree_new_inv T) as [(k & Hl & Hc & _ & Hwf & _) _].
  assert (k = 0%nat) as -> by (simpl in Hl; lia).
  rewrite (tree_allocated_eq T _ 0) by assumption.
  destruct (Z.leb_spec (current_max_size (tree_new T)) idx) as [|Hlt];
    [reflexivity|].
  rewrite Hc in Hlt. simpl root in *. unfold init_leaf in *.
  assert (0 <= idx < span T 2) as Hrange by (simpl in Hlt; lia).
  destruct (wf_leaf_word _ _ _ _ _ _ Hwf Hrange) as (w & Hw & _ & Hm).
  rewrite (allocated_in_leaf _ _ _ _ _ _ w) by assumption.
  apply lookup_replicate in Hw as [-> _].
  rewrite all_ones_testbit by assumption. reflexivity.
Qed.

Lemma allocate_at_answers T fuel t idx t' j :
  tree_inv T t -> is_u64 idx -> allocate_at T fuel t idx = Ok t' -> 0 <= j ->
  tree_allocated T t' j = (j =? idx) || tree_allocated T t j.
Proof.
  intros Hinv Hidx H Hj.
  destruct (allocate_at_spec T fuel t idx t' Hinv Hidx H)
    as (_ & Halloc & Hframe & _).
  destruct (Z.eqb_spec j idx) as [->|Hne]; [assumption|].
  apply Hframe; assumption.
Qed.

Lemma reachable_count_exact T t :
  reachable T t ->
  exists l : list Z,
    NoDup l /\
    allocated_resources t = Z.of_nat (length l) /\
    (forall j, j ∈ l -> 0 <= j) /\
    forall j, 0 <= j -> (j ∈ l <-> tree_allocated T t j = true).
Proof.
  induction 1 as [|t t' Hr (l & Hnd & Hlen & Hpos & Hl) Hstep].
  - exists []. split; [constructor|]. split; [reflexivity|].
    split; [intros j Hj; inversion Hj|].
    intros j Hj. rewrite tree_new_allocated by assumption.
    split; [intros Hin; inversion Hin|discriminate].
  - apply reachable_inv in Hr.
    destruct Hstep as [t fuel idx t' Hidx H| | |];
      try (exists l; auto; fail).
    destruct (allocate_at_spec T fuel t idx t' Hr Hidx H)
      as (_ & _ & _ & Hcount & _).
    pose proof (fun j Hj => allocate_at_answers T fuel t idx t' j Hr Hidx H Hj)
      as Hans.
    assert (0 <= idx) as Hidx0 by apply Hidx.
    destruct (tree_allocated T t idx) eqn:E.
    + exists l. split; [assumption|]. split; [lia|]. split; [assumption|].
      intros j Hj. rewrite Hans, Hl by assumption.
      destruct (Z.eqb_spec j idx) as [->|_]; simpl; [|reflexivity].
      rewrite E. tauto.
    + exists (idx :: l). split; [|split; [|split]].
      * apply NoDup_cons. split; [|assumption].
        intros Hin. apply Hl in Hin; [congruence|assumption].
      * simpl length. lia.
      * intros j Hj. apply elem_of_cons in Hj as [->|Hj]; auto.
      * intros j Hj. rewrite Hans, elem_of_cons, Hl by assumption.
        destruct (Z.eqb_spec j idx) as [->|Hne]; simpl; [tauto|].
        split; [intros [?|?]; [contradiction|assumption]|auto].
Qed.

(** X10. In every tree a program holds the counter is the number of indices
    for which [is_allocated] returns true: there is a list of indices without
    repetition, as long as the counter says, whose members are exactly the
    indices for which [is_allocated] returns true. *)
Theorem counter_counts_allocated T t :
  reachable T t ->
  exists l : list Z,
    NoDup l /\
    allocated_resources t = Z.of_nat (length l) /\
    (forall j, j ∈ l -> is_u64 j) /\
    forall j fuel, is_u64 j -> enough_fuel t fuel ->
      (j ∈ l <-> is_allocated T fuel t j = Ok true).
Proof.
  intros Hr. destruct (reachable_count_exact T t Hr)
    as (l & Hnd & Hlen & Hpos & Hl).
  apply reachable_inv in Hr as [Hshape _].
  exists l. split; [assumption|]. split; [assumption|]. split.
  - intros j Hin. pose proof (Hpos j Hin) as Hj.
    apply Hl in Hin; [|assumption].
    apply tree_allocated_lt in Hin.
    destruct Hshape as (k & _ & _ & Hcap & _).
    pose proof (capacity_limit_u64 T). unfold is_u64. lia.
  - intros j fuel [Hj _] Hfuel.
    rewrite (is_allocated_spec T t j fuel), Hl by assumption.
    split; [intros ->; reflexivity|intros [= ->]; reflexivity].
Qed.

Lemma counter_counts_allocated_witness :
  exists l : list Z,
    NoDup l /\
    allocated_resources tree_with_0_to_63 = Z.of_nat (length l) /\
    (forall j, j ∈ l -> is_u64 j) /\
    forall j fuel, is_u64 j -> enough_fuel tree_with_0_to_63 fuel ->
      (j ∈ l <-> is_allocated U64 fuel tree_with_0_to_63 j = Ok true).
Proof.
  apply (counter_counts_allocated U64 tree_with_0_to_63).
  apply reachable_tree_with_0_to_63.
Defined.

(** ** Allocating the indices of a list *)

Lemma allocate_all_spec T fuel l : forall t t',
  tree_inv T t -> Forall is_u64 l -> allocate_all T fuel t l = Ok t' ->
  tree_inv T t' /\
  forall j, 0 <= j ->
    tree_allocated T t' j = bool_decide (j ∈ l) || tree_allocated T t j.
Proof.
  induction l as [|idx l IH]; intros t t' Hinv Hl H; simpl in H.
  - injection H as <-. split; [assumption|]. intros j Hj. reflexivity.
  - destruct (allocate_at T fuel t idx) as [t1| |] eqn:E; try discriminate.
    simpl in H. apply Forall_cons in Hl as [Hidx Hl].
    destruct (allocate_at_spec T fuel t idx t1 Hinv Hidx E) as (Hinv1 & _).
    destruct (IH t1 t' Hinv1 Hl H) as [Hinv' Hans].
    split; [assumption|]. intros j Hj.
    rewrite Hans, (allocate_at_answers T fuel t idx t1 j) by assumption.
    rewrite orb_assoc. f_equal.
    destruct (Z.eqb_spec j idx) as [->|Hne].
    + rewrite (bool_decide_eq_true_2 (idx ∈ idx :: l))
        by (apply elem_of_cons; auto).
      rewrite orb_true_r. reflexivity.
    + rewrite orb_false_r. apply bool_decide_ext.
      rewrite elem_of_cons. tauto.
Qed.

Lemma allocate_all_total T l : forall t,
  tree_inv T t -> Forall (fun idx => 0 <= idx < index_limit T) l ->
  exists t', forall fuel, (16 <= fuel)%nat -> allocate_all T fuel t l = Ok t'.
Proof.
  induction l as [|idx l IH]; intros t Hinv Hl.
  - exists t. reflexivity.
  - apply Forall_cons in Hl as [Hidx Hl].
    destruct (allocate_at_total T t idx Hinv Hidx) as (t1 & Ht1).
    assert (is_u64 idx) as Hu.
    { unfold is_u64. destruct T; simpl in Hidx; lia. }
    destruct (allocate_at_spec T 16 t idx t1 Hinv Hu (Ht1 16%nat ltac:(lia)))
      as (Hinv1 & _).
    destruct (IH t1 Hinv1 Hl) as (t' & Ht').
    exists t'. intros fuel Hfuel. simpl.
    rewrite Ht1 by assumption. simpl. apply Ht'. assumption.
Qed.

(** X11. A caller that allocates the indices of a list one after the other,
    all below [index_limit], gets a tree back; in it [is_allocated(j)]
    returns true exactly for the indices of the list and for those that
    were allocated before. *)
Theorem allocate_all_answers T t l :
  reachable T t -> Forall (fun idx => 0 <= idx < index_limit T) l ->
  exists t',
    (forall fuel, (16 <= fuel)%nat -> allocate_all T fuel t l = Ok t') /\
    forall j fuel, is_u64 j -> enough_fuel t' fuel ->
      is_allocated T fuel t' j =
      Ok (bool_decide (j ∈ l) || tree_allocated T t j).
Proof.
  intros Hr Hl. apply reachable_inv in Hr.
  destruct (allocate_all_total T l t Hr Hl) as (t' & Ht').
  exists t'. split; [assumption|].
  assert (Forall is_u64 l) as Hu.
  { eapply Forall_impl; [exact Hl|].
    intros idx Hidx. unfold is_u64. destruct T; simpl in Hidx; lia. }
  destruct (allocate_all_spec T 16 l t t' Hr Hu (Ht' 16%nat ltac:(lia)))
    as [[Hshape' _] Hans].
  intros j fuel [Hj _] Hfuel.
  rewrite (is_allocated_spec T t' j fuel), Hans by assumption.
  reflexivity.
Qed.

Lemma allocate_all_answers_witness :
  exists t',
    (forall fuel, (16 <= fuel)%nat ->
       allocate_all U64 fuel (tree_new U64) [5; 5000; 5] = Ok t') /\
    forall j fuel, is_u64 j -> enough_fuel t' fuel ->
      is_allocated U64 fuel t' j =
      Ok (bool_decide (j ∈ [5; 5000; 5]) || tree_allocated U64 (tree_new U64) j).
Proof.
  apply (allocate_all_answers U64 (tree_new U64) [5; 5000; 5]).
  - apply reachable_new.
  - repeat constructor; simpl; lia.
Defined.

(** ** The destructor *)

Lemma flat_map_Permutation {A B} (f : A -> list B) l l' :
  l ≡ₚ l' -> flat_map f l ≡ₚ flat_map f l'.
Proof.
  induction 1 as [|x l l' _ IH|x y l|l l' l'' _ IH _ IH']; simpl.
  - reflexivity.
  - rewrite IH. reflexivity.
  - rewrite !app_assoc. apply Permutation_app_tail, Permutation_app_comm.
  - rewrite IH. assumption.
Qed.

Lemma flat_map_branches {B} (f : node_t -> list B) (l : list (option node_t)) :
  flat_map (fun b => match b with Some child => f child | None => [] end) l =
  flat_map f (omap id l).
Proof.
  induction l as [|[c|] l IH]; simpl; [reflexivity| |assumption].
  rewrite IH. reflexivity.
Qed.

Lemma sum_list_with_branches (f : node_t -> nat) (l : list (option node_t)) :
  sum_list_with (fun b => match b with Some child => f child | None => 0%nat end)
    l = sum_list_with f (omap id l).
Proof.
  induction l as [|[c|] l IH]; simpl; [reflexivity| |assumption].
  rewrite IH. reflexivity.
Qed.

Lemma wf_inner_children T k ub abz branches child :
  wf_node T (S k) (inner_node ub (Some abz) branches) ->
  child ∈ omap id branches -> wf_node T k child.
Proof.
  intros Hwf Hin. apply wf_node_inner in Hwf.
  destruct Hwf as (k' & abz' & [= <-] & [= <-] & _ & _ & Hlen & Hbr).
  apply list_elem_of_omap in Hin as (x & Hx & Heq). simpl in Heq. subst x.
  apply list_elem_of_lookup in Hx as (i & Hi).
  assert (i < Z.to_nat (branching_factor T))%nat as Hlt.
  { rewrite <- Hlen. eapply lookup_lt_Some. eassumption. }
  specialize (Hbr i Hlt). destruct (Z.testbit abz (Z.of_nat i)).
  - destruct Hbr as (c & Hc & Hcwf). congruence.
  - congruence.
Qed.

Lemma nodes_of_length T k : forall n,
  wf_node T k n -> length (nodes_of n) = node_count n.
Proof.
  induction k as [|k IH]; intros n Hwf;
    destruct n as [ub ab bits|ub ab branches]; try reflexivity.
  - destruct Hwf.
  - destruct (wf_node_inner _ _ _ _ _ Hwf)
      as (k' & abz & [= <-] & -> & _).
    simpl. f_equal.
    rewrite flat_map_branches, sum_list_with_branches.
    pose proof (wf_inner_children T k ub abz branches) as Hc.
    specialize (fun c => Hc c Hwf).
    induction (omap id branches) as [|c cs IHcs]; simpl; [reflexivity|].
    rewrite length_app, IHcs, IH.
    + reflexivity.
    + apply Hc. left.
    + intros c' Hc'. apply Hc. right. assumption.
Qed.

Lemma push_branches_spec T abz branches :
  is_word T abz ->
  length branches = Z.to_nat (branching_factor T) ->
  (forall i, (i < Z.to_nat (branching_factor T))%nat ->
     if Z.testbit abz (Z.of_nat i)
     then exists child, branches !! i = Some (Some child)
     else branches !! i = Some None) ->
  forall count p stack,
    (p + count = Z.to_nat (branching_factor T))%nat ->
    push_branches T abz branches (Z.of_nat p) count stack =
    Ok (reverse ((fun c => (false, c)) <$> omap id (drop p branches))
          ++ stack).
Proof.
  intros Hw Hlen Hbr. induction count as [|count IH]; intros p stack Hp.
  - simpl. rewrite drop_ge by lia. reflexivity.
  - assert (p < Z.to_nat (branching_factor T))%nat as Hlt by lia.
    specialize (Hbr p Hlt). simpl.
    rewrite test_bit_testbit by (unfold branching_factor in *; lia).
    rewrite Nat2Z.id.
    replace (Z.of_nat p + 1) with (Z.of_nat (S p)) by lia.
    destruct (Z.testbit abz (Z.of_nat p)).
    + destruct Hbr as (child & Hc). rewrite Hc, IH by lia.
      rewrite (drop_S _ _ _ Hc). simpl. rewrite reverse_cons, <- app_assoc.
      reflexivity.
    + rewrite IH by lia. rewrite (drop_S _ _ _ Hbr). reflexivity.
Qed.

Lemma destroy_loop_node T k : forall n,
  wf_node T k n ->
  exists out s,
    (s <= 2 * length out)%nat /\
    out ≡ₚ nodes_of n /\
    forall fuel rest freed,
      destroy_loop T (s + fuel) ((false, n) :: rest) freed =
      destroy_loop T fuel rest (out ++ freed).
Proof.
  induction k as [|k IH]; intros n Hwf;
    destruct n as [ub ab bits|ub ab branches].
  1,3: exists [leaf_node ub ab bits], 1%nat; simpl;
    split; [lia|split; [reflexivity|reflexivity]].
  - destruct Hwf.
  - destruct (wf_node_inner _ _ _ _ _ Hwf)
      as (k' & abz & [= <-] & -> & _ & Hw & Hlen & Hbr).
    pose proof (wf_inner_children T k ub abz branches) as Hc.
    specialize (fun c => Hc c Hwf).
    (* the children, in the order of the stack *)
    assert (forall cs, (forall c, c ∈ cs -> wf_node T k c) ->
              exists out s,
                (s <= 2 * length out)%nat /\
                out ≡ₚ flat_map nodes_of cs /\
                forall fuel rest freed,
                  destroy_loop T (s + fuel)
                    (((fun c => (false, c)) <$> cs) ++ rest) freed =
                  destroy_loop T fuel rest (out ++ freed)) as Hlist.
    { induction cs as [|c cs IHcs]; intros Hcs.
      - exists [], 0%nat. simpl. split; [lia|]. split; reflexivity.
      - destruct (IH c (Hcs c ltac:(left))) as (o1 & s1 & Hs1 & Ho1 & Hrun1).
        destruct IHcs as (o2 & s2 & Hs2 & Ho2 & Hrun2).
        { intros c' Hc'. apply Hcs. right. assumption. }
        exists (o2 ++ o1), (s1 + s2)%nat. split; [|split].
        + rewrite length_app. lia.
        + simpl. rewrite Ho1, Ho2. apply Permutation_app_comm.
        + intros fuel rest freed. simpl.
          rewrite <- Nat.add_assoc, Hrun1, Hrun2, app_assoc. reflexivity. }
    destruct (Hlist (reverse (omap id branches)))
      as (out & s & Hs & Hout & Hrun).
    { intros c Hin. apply Hc. apply elem_of_reverse. assumption. }
    exists (inner_node ub (Some abz) branches :: out), (S (s + 1)).
    split; [simpl; lia|]. split.
    + simpl. constructor. rewrite Hout, flat_map_branches.
      apply flat_map_Permutation, reverse_Permutation.
    + intros fuel rest freed. simpl.
      rewrite (push_branches_spec T abz branches Hw Hlen) with (p := 0%nat).
      * simpl. rewrite drop_0, <- fmap_reverse.
        replace (s + 1 + fuel)%nat with (s + S fuel)%nat by lia.
        rewrite Hrun. reflexivity.
      * intros i Hi. specialize (Hbr i Hi).
        destruct (Z.testbit abz (Z.of_nat i)); [|assumption].
        destruct Hbr as (c & Hci & _). eauto.
      * lia.
Qed.

(** X12. The destructor of a tree a program holds gives every node of the
    tree to [free] once and follows no pointer that was not written: it
    ends within two turns of its loop per node, and the nodes freed are the
    nodes of the tree, as many as [node_count] counts. *)
Theorem destroy_frees_every_node T t :
  reachable T t ->
  exists freed,
    (forall fuel, (2 * node_count (root t) <= fuel)%nat ->
       destroy T fuel t = Ok freed) /\
    freed ≡ₚ nodes_of (root t) /\
    length freed = node_count (root t).
Proof.
  intros Hr. apply reachable_inv in Hr as [(k & _ & _ & _ & Hwf & _) _].
  destruct (destroy_loop_node T (S k) (root t) Hwf)
    as (out & s & Hs & Hout & Hrun).
  pose proof (nodes_of_length T (S k) (root t) Hwf) as Hlen.
  assert (length out = node_count (root t)) as Hlen'.
  { rewrite <- Hlen. apply Permutation_length. assumption. }
  exists out. split; [|split; assumption].
  intros fuel Hfuel. unfold destroy.
  replace fuel with (s + (fuel - s))%nat by lia.
  rewrite Hrun. rewrite app_nil_r. destruct (fuel - s)%nat; reflexivity.
Qed.

Lemma destroy_frees_every_node_witness :
  exists freed,
    (forall fuel, (2 * node_count (root tree_with_5000) <= fuel)%nat ->
       destroy U64 fuel tree_with_5000 = Ok freed) /\
    freed ≡ₚ nodes_of (root tree_with_5000) /\
    length freed = node_count (root tree_with_5000).
Proof.
  apply (destroy_frees_every_node U64 tree_with_5000).
  apply reachable_tree_with_5000.
Defined.

(** ** Nothing is released *)

Lemma reachable_from_grows T t t' :
  tree_inv T t -> reachable_from T t t' ->
  tree_inv T t' /\
  levels t <= levels t' /\
  allocated_resources t <= allocated_resources t' /\
  forall j, 0 <= j -> tree_allocated T t j = true ->
    tree_allocated T t' j = true.
Proof.
  intros Hinv. induction 1 as [|t' t'' _ (IH & Hl & Ha & Hal) Hstep].
  - split; [assumption|]. split; [lia|]. split; [lia|auto].
  - split; [eapply step_inv; eassumption|].
    destruct Hstep as [t' fuel idx t'' Hidx H| | |]; simpl; auto.
    destruct (allocate_at_spec T fuel t' idx t'' IH Hidx H)
      as (_ & _ & _ & Hcount & Hl' & _).
    split; [lia|]. split.
    + destruct (tree_allocated T t' idx); lia.
    + intros j Hj Hbefore.
      rewrite (allocate_at_answers T fuel t' idx t'' j) by assumption.
      rewrite (Hal j Hj Hbefore). apply orb_true_r.
Qed.

(** X13. Whatever a program calls afterwards, an index for which
    [is_allocated] returns true stays allocated, and neither the counter nor
    the number of levels goes down: no member releases anything. *)
Theorem allocated_stays_allocated T t t' :
  reachable T t -> reachable_from T t t' ->
  levels t <= levels t' /\
  allocated_resources t <= allocated_resources t' /\
  forall j fuel fuel',
    is_u64 j -> enough_fuel t fuel -> enough_fuel t' fuel' ->
    is_allocated T fuel t j = Ok true ->
    is_allocated T fuel' t' j = Ok true.
Proof.
  intros Hr Hfrom. apply reachable_inv in Hr.
  destruct (reachable_from_grows T t t' Hr Hfrom)
    as ([Hshape' _] & Hl & Ha & Hal).
  destruct Hr as [Hshape _].
  split; [assumption|]. split; [assumption|].
  intros j fuel fuel' [Hj _] Hfuel Hfuel' H.
  rewrite (is_allocated_spec T t j fuel) in H by assumption.
  injection H as H.
  rewrite (is_allocated_spec T t' j fuel') by assumption.
  rewrite (Hal j Hj H). reflexivity.
Qed.

Lemma allocated_stays_allocated_witness :
  is_allocated U64 3 (deallocate U64 tree_with_5 5) 5 = Ok true.
Proof.
  destruct (allocated_stays_allocated U64 tree_with_5
              (deallocate U64 tree_with_5 5)) as (_ & _ & H).
  - apply reachable_tree_with_5.
  - apply (reachable_from_step U64 _ tree_with_5);
      [apply reachable_from_refl|].
    apply step_deallocate. unfold is_T. simpl. lia.
  - apply (H 5 2%nat 3%nat).
    + apply is_u64_5.
    + unfold enough_fuel. simpl. lia.
    + unfold enough_fuel. simpl. lia.
    + vm_compute. reflexivity.
Defined.

(** ** The order of allocations *)

Lemma span_lt_succ T k k' :
  span T k < span T k' -> span T (S k) <= span T k'.
Proof.
  intros Hlt. apply span_mono.
  destruct (Nat.le_gt_cases k' k) as [Hle|]; [|lia].
  apply (span_mono T) in Hle. lia.
Qed.

Lemma span_inj T k k' : span T k = span T k' -> k = k'.
Proof.
  intros Heq. pose proof (branching_factor_ge T) as HB.
  pose proof (span_pos T k) as Hp. pose proof (span_pos T k') as Hp'.
  destruct (Nat.lt_trichotomy k k') as [Hlt|[Heq'|Hlt]]; [|assumption|].
  - assert (span T (S k) <= span T k') by (apply span_mono; lia).
    rewrite span_S in *. nia.
  - assert (span T (S k') <= span T k) by (apply span_mono; lia).
    rewrite span_S in *. nia.
Qed.

Lemma allocate_all_capacity T fuel l : forall t t',
  tree_inv T t -> Forall is_u64 l -> allocate_all T fuel t l = Ok t' ->
  current_max_size t <= current_max_size t' /\
  (forall idx, idx ∈ l -> idx < current_max_size t') /\
  (current_max_size t' = current_max_size t \/
   exists idx, idx ∈ l /\ current_max_size t' <= idx * branching_factor T).
Proof.
  induction l as [|idx l IH]; intros t t' Hinv Hl H; simpl in H.
  - injection H as <-. split; [lia|]. split; [|auto].
    intros idx Hin. inversion Hin.
  - destruct (allocate_at T fuel t idx) as [t1| |] eqn:E; try discriminate.
    simpl in H. apply Forall_cons in Hl as [Hidx Hl].
    destruct (allocate_at_spec T fuel t idx t1 Hinv Hidx E)
      as (Hinv1 & _ & _ & _ & _ & Hc1 & Hlt1).
    destruct (allocate_at_capacity T t idx fuel t1 Hinv Hidx E)
      as [Hsame Hgrow].
    destruct (IH t1 t' Hinv1 Hl H) as (Hc' & Hall & Hmin).
    split; [lia|]. split.
    + intros j Hin. apply elem_of_cons in Hin as [->|Hin]; [lia|auto].
    + destruct Hmin as [Heq|(j & Hin & Hj)].
      * destruct (Z.lt_ge_cases idx (current_max_size t)) as [Hlt|Hge].
        -- left. destruct (Hsame Hlt) as [_ Hs]. lia.
        -- right. exists idx. split; [left|]. specialize (Hgrow Hge). lia.
      * right. exists j. split; [right; assumption|assumption].
Qed.

Lemma allocate_all_capacity_le T t l1 l2 fuel1 fuel2 t1 t2 :
  tree_inv T t -> Forall is_u64 l1 -> Forall is_u64 l2 ->
  (forall j, j ∈ l2 -> j ∈ l1) ->
  allocate_all T fuel1 t l1 = Ok t1 -> allocate_all T fuel2 t l2 = Ok t2 ->
  current_max_size t2 <= current_max_size t1.
Proof.
  intros Hinv Hl1 Hl2 Hsub H1 H2.
  destruct (allocate_all_spec T fuel1 l1 t t1 Hinv Hl1 H1)
    as [[(k1 & _ & Hk1 & _) _] _].
  destruct (allocate_all_spec T fuel2 l2 t t2 Hinv Hl2 H2)
    as [[(k2 & _ & Hk2 & _) _] _].
  destruct (allocate_all_capacity T fuel1 l1 t t1 Hinv Hl1 H1)
    as (Hc1 & Hall1 & _).
  destruct (allocate_all_capacity T fuel2 l2 t t2 Hinv Hl2 H2)
    as (_ & _ & Hmin2).
  destruct (Z.le_gt_cases (current_max_size t2) (current_max_size t1))
    as [|Hlt]; [assumption|exfalso].
  pose proof (branching_factor_ge T) as HB.
  assert (current_max_size t1 * branching_factor T <= current_max_size t2)
    as Hstep.
  { rewrite Hk1, Hk2 in *. apply span_lt_succ in Hlt.
    rewrite span_S in Hlt. lia. }
  destruct Hmin2 as [Heq|(j & Hin & Hj)]; [lia|].
  specialize (Hall1 j (Hsub j Hin)). nia.
Qed.

(** X14. Two callers that allocate the same indices from the same tree, in
    any order and with any repetitions, end with the same levels, capacity and
    counter, and with the same answer of [is_allocated] for every index. *)
Theorem allocate_all_any_order T t l1 l2 fuel1 fuel2 t1 t2 :
  reachable T t -> Forall is_u64 l1 -> Forall is_u64 l2 ->
  (forall j, j ∈ l1 <-> j ∈ l2) ->
  allocate_all T fuel1 t l1 = Ok t1 -> allocate_all T fuel2 t l2 = Ok t2 ->
  levels t1 = levels t2 /\
  current_max_size t1 = current_max_size t2 /\
  allocated_resources t1 = allocated_resources t2 /\
  forall j fuel, is_u64 j -> enough_fuel t1 fuel ->
    is_allocated T fuel t1 j = is_allocated T fuel t2 j.
Proof.
  intros Hr Hl1 Hl2 Hsame H1 H2.
  pose proof (reachable_allocate_all T fuel1 l1 t t1 Hr Hl1 H1) as Hr1.
  pose proof (reachable_allocate_all T fuel2 l2 t t2 Hr Hl2 H2) as Hr2.
  apply reachable_inv in Hr.
  destruct (allocate_all_spec T fuel1 l1 t t1 Hr Hl1 H1) as [[Hs1 _] Ha1].
  destruct (allocate_all_spec T fuel2 l2 t t2 Hr Hl2 H2) as [[Hs2 _] Ha2].
  assert (forall j, 0 <= j -> tree_allocated T t1 j = tree_allocated T t2 j)
    as Hans.
  { intros j Hj. rewrite Ha1, Ha2 by assumption. f_equal.
    apply bool_decide_ext. apply Hsame. }
  assert (current_max_size t1 = current_max_size t2) as Hc.
  { apply Z.le_antisymm.
    - apply (allocate_all_capacity_le T t l2 l1 fuel2 fuel1 t2 t1);
        try assumption. intros j. apply Hsame.
    - apply (allocate_all_capacity_le T t l1 l2 fuel1 fuel2 t1 t2);
        try assumption. intros j. apply Hsame. }
  assert (levels t1 = levels t2) as Hl.
  { destruct Hs1 as (k1 & Hk1 & Hc1 & _), Hs2 as (k2 & Hk2 & Hc2 & _).
    rewrite Hc1, Hc2 in Hc. apply span_inj in Hc. lia. }
  split; [assumption|]. split; [assumption|]. split.
  - destruct (reachable_count_exact T t1 Hr1) as (L1 & Hnd1 & -> & Hp1 & HL1).
    destruct (reachable_count_exact T t2 Hr2) as (L2 & Hnd2 & -> & Hp2 & HL2).
    f_equal. apply Permutation_length. apply NoDup_Permutation; try assumption.
    intros j. split; intros Hin.
    + apply HL2; [auto|]. rewrite <- Hans by auto. apply HL1; auto.
    + apply HL1; [auto|]. rewrite Hans by auto. apply HL2; auto.
  - intros j fuel [Hj _] Hfuel.
    rewrite (is_allocated_spec T t1 j fuel), (is_allocated_spec T t2 j fuel),
      Hans; try assumption; [reflexivity|].
    unfold enough_fuel in *. lia.
Qed.

Lemma allocate_all_any_order_witness :
  allocated_resources
    (or_new U64 (allocate_all U64 3 (tree_new U64) [5; 5000])) =
  allocated_resources
    (or_new U64 (allocate_all U64 3 (tree_new U64) [5000; 5; 5])).
Proof.
  assert (Forall is_u64 [5; 5000]) as Hl1
    by (repeat constructor; unfold is_u64; lia).
  assert (Forall is_u64 [5000; 5; 5]) as Hl2
    by (repeat constructor; unfold is_u64; lia).
  assert (forall j, j ∈ [5; 5000] <-> j ∈ [5000; 5; 5]) as Hsame.
  { intros j. rewrite !elem_of_cons. rewrite !elem_of_nil. tauto. }
  apply (allocate_all_any_order U64 (tree_new U64) [5; 5000] [5000; 5; 5]
           3 3 _ _ (reachable_new U64) Hl1 Hl2 Hsame).
  - vm_compute. reflexivity.
  - vm_compute. reflexivity.
Defined.

(** ** Growth alone *)

(** X15. On a tree a program holds and for an index below [index_limit],
    [move_max_size] returns after 8 turns at most with a capacity above the
    index; it allocates nothing: the counter and every answer of
    [is_allocated] are as before. *)
Theorem move_max_size_keeps_allocations T t idx :
  reachable T t -> 0 <= idx < index_limit T ->
  exists t',
    (forall fuel, (8 <= fuel)%nat -> move_max_size T fuel t idx = Ok t') /\
    idx < current_max_size t' /\
    allocated_resources t' = allocated_resources t /\
    forall j fuel, is_u64 j -> enough_fuel t' fuel ->
      is_allocated T fuel t' j = is_allocated T fuel t j.
Proof.
  intros Hr Hidx. apply reachable_inv in Hr as [Hshape _].
  destruct (move_max_size_total T t idx Hshape Hidx) as (t' & Ht').
  assert (is_T T idx) as HidxT.
  { unfold is_T. destruct T; simpl in *; lia. }
  destruct (move_max_size_spec T 8 t idx t' Hshape HidxT (Ht' 8%nat ltac:(lia)))
    as (Hshape' & Hlt & Ha & Hl & _ & Hal & _).
  exists t'. split; [assumption|]. split; [assumption|].
  split; [assumption|].
  intros j fuel [Hj _] Hfuel.
  rewrite (is_allocated_spec T t' j fuel), (is_allocated_spec T t j fuel), Hal;
    try assumption; [reflexivity|].
  unfold enough_fuel in *. lia.
Qed.

Lemma move_max_size_keeps_allocations_witness :
  exists t',
    (forall fuel, (8 <= fuel)%nat ->
       move_max_size U64 fuel tree_with_5 (10 ^ 10) = Ok t') /\
    10 ^ 10 < current_max_size t' /\
    allocated_resources t' = allocated_resources tree_with_5 /\
    forall j fuel, is_u64 j -> enough_fuel t' fuel ->
      is_allocated U64 fuel t' j = is_allocated U64 fuel tree_with_5 j.
Proof.
  apply (move_max_size_keeps_allocations U64 tree_with_5 (10 ^ 10)).
  - apply reachable_tree_with_5.
  - simpl. lia.
Defined.

(** ** The nodes a call that does not return creates *)

Lemma wrap_root_past_limit t idx :
  2 ^ 60 <= idx < 2 ^ 64 ->
  shape_inv U64 t \/
  (current_max_size t = 0 /\ exists w, unset_branches (root t) = Some w) ->
  current_max_size t <= 2 ^ 60 /\
  exists t1,
    wrap_root U64 t = Ok t1 /\
    node_count (root t1) = S (node_count (root t)) /\
    (shape_inv U64 t1 \/
     (current_max_size t1 = 0 /\
      exists w, unset_branches (root t1) = Some w)).
Proof.
  intros Hidx Ht.
  assert (current_max_size t <= 2 ^ 60) as Hle
    by (destruct Ht as [(k & _ & _ & Hcap & _)|[-> _]];
        [simpl in Hcap|]; lia).
  split; [assumption|].
  assert (is_T U64 idx) as HidxT by (unfold is_T; simpl; lia).
  assert (exists w, unset_branches (root t) = Some w) as (w & Hw).
  { destruct Ht as [(k & _ & _ & _ & _ & Hub)|[_ Hub]]; eauto. }
  assert (exists t1, wrap_root U64 t = Ok t1 /\
            node_count (root t1) = S (node_count (root t)) /\
            current_max_size t1 =
              cast_u64 (current_max_size t * branching_factor U64) /\
            exists w1, unset_branches (root t1) = Some w1)
    as (t1 & Hwrap & Hcount & Hc1 & Hub1).
  { unfold wrap_root. rewrite Hw. eexists. split; [reflexivity|].
    simpl. split; [lia|]. eauto. }
  exists t1. split; [assumption|]. split; [assumption|].
  destruct Ht as [Hshape|[Hc _]].
  - destruct (Z.le_gt_cases (current_max_size t * branching_factor U64)
                (capacity_limit U64)) as [Hfit|Hover].
    + left. destruct (wrap_root_spec U64 t Hshape Hfit) as (t1' & E & ? & _).
      congruence.
    + right. split; [|assumption].
      apply (wrap_root_overflow U64 t idx t1); (assumption || lia).
  - right. split; [|assumption]. rewrite Hc1, Hc. reflexivity.
Qed.

Lemma wrap_times_runs_on n : forall t idx,
  2 ^ 60 <= idx < 2 ^ 64 ->
  shape_inv U64 t \/
  (current_max_size t = 0 /\ exists w, unset_branches (root t) = Some w) ->
  exists t',
    wrap_times U64 n t = Ok t' /\
    node_count (root t') = (n + node_count (root t))%nat /\
    current_max_size t' <= idx /\
    forall fuel,
      move_max_size U64 (n + fuel) t idx = move_max_size U64 fuel t' idx.
Proof.
  induction n as [|n IH]; intros t idx Hidx Ht;
    destruct (wrap_root_past_limit t idx Hidx Ht)
      as (Hle & t1 & Hwrap & Hcount & Ht1).
  - exists t. split; [reflexivity|]. split; [reflexivity|].
    split; [lia|reflexivity].
  - destruct (IH t1 idx Hidx Ht1) as (t' & Hwraps & Hcount' & Hle' & Hrun).
    exists t'. split; [|split; [|split]].
    + simpl. rewrite Hwrap. exact Hwraps.
    + lia.
    + assumption.
    + intros fuel. simpl plus. rewrite move_max_size_eq.
      destruct (Z.leb_spec (current_max_size t) idx); [|lia].
      rewrite Hwrap. apply Hrun.
Qed.

(** C9. On a new tree of 64-bit words [allocate_at(2^60)] does not return,
    and the growth it entered keeps creating roots: after [n] turns of the
    [while] of [move_max_size] the tree has [n] more nodes, the capacity is
    still not above the index and the loop goes on, for every [n]. *)
Theorem growth_creates_roots_without_bound :
  (forall fuel, allocate_at U64 fuel (tree_new U64) (2 ^ 60) = OutOfFuel) /\
  forall n,
    exists t,
      wrap_times U64 n (tree_new U64) = Ok t /\
      node_count (root t) = S n /\
      current_max_size t <= 2 ^ 60 /\
      forall fuel,
        move_max_size U64 (n + fuel) (tree_new U64) (2 ^ 60) =
        move_max_size U64 fuel t (2 ^ 60).
Proof.
  assert (2 ^ 60 <= 2 ^ 60 < 2 ^ 64) as Hidx by lia.
  pose proof (proj1 (tree_new_inv U64)) as Hshape.
  split.
  - intros fuel. unfold allocate_at.
    change (current_max_size (tree_new U64) <=? 2 ^ 60) with true. cbv iota.
    change (cast_T U64 (2 ^ 60)) with (2 ^ 60).
    rewrite move_max_size_runs_on by auto. reflexivity.
  - intros n.
    destruct (wrap_times_runs_on n (tree_new U64) (2 ^ 60) Hidx (or_introl Hshape))
      as (t & Hwraps & Hcount & Hle & Hrun).
    exists t. split; [assumption|]. split; [|split; assumption].
    rewrite Hcount. simpl. lia.
Qed.
